(** * Two-armed Beta-Bernoulli bandit: state enumeration and backward pass

    A shallow embedding of the notebook's three functions [f],
    [Previous_Nodes_Func] and [Bernoulli_Bandit] (with [minimize_func]),
    and the properties of them that the specification states.

    Modelling conventions.
    - A table ([pandas.DataFrame]) is the list of its rows, in row order.
      Columns 0..3 hold the four counts, column 4 the value and column 5
      the rounded mixing parameter.
    - The counts.  [f] adds in the integers.  numpy adds in 64 bits:
      [f_int64] is [f] with that addition, wrap-around included, and the
      two agree while the counts stay in range ([f_int64_id]).  The
      backward pass adds to the counts of a row and compares them in
      [int64] or in float64, according to the type pandas gives the row;
      both are exact up to 2^53.  A property that depends on the size of
      the counts carries the bound as a hypothesis.
    - Column 4, in two models.  In the first it is a rational number:
      float64 arithmetic is idealised to exact arithmetic, and [/] is true
      division, as in the outputs recorded in the notebook (fractional
      values, [print] as a function).  This model carries which rows a
      table has, which selections succeed, which columns exist and how the
      value stored is made up.  In the second (the definitions named
      [..._b64]) column 4 is a binary64 number and the bounded minimiser
      is scipy's: it evaluates the solver on given inputs as it runs, and
      it is where the comparison of the two machines is settled.
    - A division by a zero sum of counts, which only an initial state with
      a count below 1 can lead to, gives [inf] or [nan] in numpy and 0 in
      the first model: what is stated about values is stated for states
      whose sums of counts are not 0.
    - [scipy.optimize.minimize_scalar] is not code of the notebook.  In the
      first model it is a parameter of the solver, and what is proved of
      the solver's results assumes at most that it returns a point of its
      bounds ([within_bounds]).  The contract [bounded_minimizer] asks
      more: it is what an exact minimiser does, it serves only to show
      that column 5 holds 0 at an input whichever exact minimiser is used,
      and the binary64 minimiser does not meet it. *)

From Stdlib Require Import ZArith QArith Qround Qminmax Qabs Lqa Lia List Bool
  Permutation.
From Stdlib Require Import PrimFloat.
From Stdlib Require Uint63.
Import ListNotations.

Set Warnings "-inexact-float".

Local Open Scope Z_scope.

(** ** Rows of counts *)

(** Columns 0..3 of a row: (a1, b1, a2, b2). *)
Definition Node : Type := (Z * Z * Z * Z)%type.

Definition Node_eqb (s t : Node) : bool :=
  let '(a, b, c, d) := s in
  let '(a', b', c', d') := t in
  (a =? a') && (b =? b') && (c =? c') && (d =? d').

Definition Node_add (s v : Node) : Node :=
  let '(a, b, c, d) := s in
  let '(i, j, k, l) := v in
  (a + i, b + j, c + k, d + l).

Definition coord_sum (s : Node) : Z :=
  let '(a, b, c, d) := s in a + b + c + d.

(** [np.array([1,0,0,0])] and the three others. *)
Definition u0 : Node := (1, 0, 0, 0).
Definition u1 : Node := (0, 1, 0, 0).
Definition u2 : Node := (0, 0, 1, 0).
Definition u3 : Node := (0, 0, 0, 1).

(** The rows [A], [B], [C], [D] built from one row. *)
Definition children (s : Node) : list Node :=
  [ Node_add s u0; Node_add s u1; Node_add s u2; Node_add s u3 ].

(** [range(lo, hi)]. *)
Definition range (lo hi : Z) : list Z :=
  map (fun i => lo + Z.of_nat i) (seq 0 (Z.to_nat (hi - lo))).

(** ** The enumerator [f] *)

(** [DataFrame.drop_duplicates]: every row equal to an earlier one is
    dropped, the first occurrence stays where it is. *)
Fixpoint drop_duplicates_from (seen rows : list Node) : list Node :=
  match rows with
  | [] => []
  | r :: rows' =>
      if existsb (Node_eqb r) seen
      then drop_duplicates_from seen rows'
      else r :: drop_duplicates_from (r :: seen) rows'
  end.

Definition drop_duplicates (rows : list Node) : list Node :=
  drop_duplicates_from [] rows.

(** [Nodes2] after the inner loop over the rows of [Nodes]. *)
Definition Nodes2 (Nodes : list Node) : list Node :=
  flat_map children Nodes.

(** One pass of the loop [for j in range(2,n)] per element of [js]. *)
Fixpoint f_loop (js : list Z) (Nodes : list Node) : list Node :=
  match js with
  | [] => Nodes
  | _ :: js' => f_loop js' (drop_duplicates (Nodes2 Nodes))
  end.

Definition f (a b c d n : Z) : list Node :=
  if n =? 1 then [(a, b, c, d)]
  else f_loop (range 2 n) (children (a, b, c, d)).



(** ** The enumerator in 64-bit integers *)

(** The rows are held in numpy arrays of [int64].  [f] above adds in the
    integers; [f_int64] adds as lines 145-148 do, and the two agree while
    the counts stay in range ([f_int64_id]). *)
Definition int64_min : Z := -9223372036854775808.
Definition int64_max : Z := 9223372036854775807.

(** An addition of two [int64] wraps around. *)
Definition wrap_int64 (z : Z) : Z :=
  (z - int64_min) mod 18446744073709551616 + int64_min.

Definition in_int64 (z : Z) : bool := (int64_min <=? z) && (z <=? int64_max).

Definition Node_in_int64 (s : Node) : bool :=
  let '(a, b, c, d) := s in
  in_int64 a && in_int64 b && in_int64 c && in_int64 d.

(** [Nodes.ix[i,:] + np.array([1,0,0,0])] and the like. *)
Definition Node_add_int64 (s v : Node) : Node :=
  let '(a, b, c, d) := s in
  let '(i, j, k, l) := v in
  (wrap_int64 (a + i), wrap_int64 (b + j),
   wrap_int64 (c + k), wrap_int64 (d + l)).

Definition children_int64 (s : Node) : list Node :=
  [ Node_add_int64 s u0; Node_add_int64 s u1;
    Node_add_int64 s u2; Node_add_int64 s u3 ].

Definition Nodes2_int64 (Nodes : list Node) : list Node :=
  flat_map children_int64 Nodes.

Fixpoint f_loop_int64 (js : list Z) (Nodes : list Node) : list Node :=
  match js with
  | [] => Nodes
  | _ :: js' => f_loop_int64 js' (drop_duplicates (Nodes2_int64 Nodes))
  end.

(** [f] with its table in [int64].  The rows built before the loop are
    sums of Python integers; when one of them does not fit, [np.array]
    builds a table of another type (float64, or Python objects), which is
    outside this model: [None]. *)
Definition f_int64 (a b c d n : Z) : option (list Node) :=
  if n =? 1 then
    if Node_in_int64 (a, b, c, d) then Some [(a, b, c, d)] else None
  else
    let Nodes :=
      [(a + 1, b, c, d); (a, b + 1, c, d); (a, b, c + 1, d); (a, b, c, d + 1)]
    in
    if forallb Node_in_int64 Nodes
    then Some (f_loop_int64 (range 2 n) Nodes)
    else None.

(** The four counts of [s] lie between [lo] and [hi]. *)
Definition Node_bounded (lo hi : Z) (s : Node) : Prop :=
  let '(a, b, c, d) := s in
  (lo <= a <= hi) /\ (lo <= b <= hi) /\ (lo <= c <= hi) /\ (lo <= d <= hi).

(** Up to 2^53 every integer is a float64 and an [int64]: the bound on
    the counts under which the rows of the backward pass are stated. *)
Definition float_exact : Z := 9007199254740992.

(** ** The backward pass *)

Local Open Scope Q_scope.

(** A row of a table with its value columns; column 5 is absent ([None]) in
    the table of the last layer, which only gets column 4. *)
Record Row : Type := mkRow { node : Node; col4 : Q; col5 : option Q }.

Definition Table : Type := list Row.

(** Python's [max(x, y)]: the first argument unless the second is larger. *)
Definition py_max (x y : Q) : Q := if Qle_bool y x then x else y.

(** [np.round]: to the nearest integer, a tie to the even one. *)
Definition np_round (x : Q) : Q :=
  let fl := Qfloor x in
  inject_Z
    match Qcompare (x - inject_Z fl)%Q (1 # 2)%Q with
    | Lt => fl
    | Gt => (fl + 1)%Z
    | Eq => if Z.even fl then fl else (fl + 1)%Z
    end.

Definition minimize_func (p E1 E2 E3 E4 : Q) : Q :=
  - (p * (1 + E1) + p * (0 + E2) + (1 - p) * (1 + E3) + (1 - p) * (0 + E4)).

(** The body of the first loop of [Bernoulli_Bandit]: [max(E_1, E_2)]. *)
Definition Final_value (s : Node) : Q :=
  let '(a1, b1, a2, b2) := s in
  let E_1 := inject_Z a1 / inject_Z (a1 + b1) in
  let E_2 := inject_Z a2 / inject_Z (a2 + b2) in
  py_max E_1 E_2.

Definition Final_Nodes (a1 b1 a2 b2 N : Z) : Table :=
  map (fun s => mkRow s (Final_value s) None) (f a1 b1 a2 b2 N).

(** [Final_Nodes.values[np.alltrue(Final_Nodes.ix[:,0:3] == A, axis = 1),4]]:
    column 4 of every row whose counts are [A]. *)
Definition select_col4 (T : Table) (A : Node) : list Q :=
  map col4 (filter (fun r => Node_eqb (node r) A) T).

(** The selection as the number that ends up in a cell.  The notebook has
    no code for a selection that does not hold exactly one value: what
    numpy, scipy and pandas then do with it in the objective and in the cell
    assignment is outside this model, which stops with [None]. *)
Definition item (E : list Q) : option Q :=
  match E with
  | [v] => Some v
  | _ => None
  end.

(** [-minimize_func(1, ...)] and [-minimize_func(0, ...)]: what the
    objective is worth on machine 1 and on machine 2. *)
Definition arm_values (E1 E2 E3 E4 : Q) : Q * Q :=
  (- minimize_func 1 E1 E2 E3 E4, - minimize_func 0 E1 E2 E3 E4).

(** The four selections of one pass of the loop of [Previous_Nodes_Func]. *)
Definition successors_values (T : Table) (s : Node)
  : option (Q * Q * Q * Q) :=
  match children s with
  | [A; B; C; D] =>
      match item (select_col4 T A), item (select_col4 T B),
            item (select_col4 T C), item (select_col4 T D) with
      | Some E1, Some E2, Some E3, Some E4 => Some (E1, E2, E3, E4)
      | _, _, _, _ => None
      end
  | _ => None
  end.

Section Solver.

(** [minimize_scalar(g, method = 'bounded', bounds = [0,1]).x] *)
Variable minimize_scalar : (Q -> Q) -> Q.

(** One pass of the loop of [Previous_Nodes_Func], on the row [s]. *)
Definition Previous_Nodes_row (T : Table) (s : Node) : option Row :=
  match successors_values T s with
  | Some (E1, E2, E3, E4) =>
      let choice :=
        np_round (minimize_scalar (fun p => minimize_func p E1 E2 E3 E4)) in
      Some (mkRow s (- minimize_func choice E1 E2 E3 E4) (Some choice))
  | None => None
  end.

Fixpoint Previous_Nodes_rows (T : Table) (rows : list Node)
  : option Table :=
  match rows with
  | [] => Some []
  | s :: rows' =>
      match Previous_Nodes_row T s with
      | Some r =>
          match Previous_Nodes_rows T rows' with
          | Some rs => Some (r :: rs)
          | None => None
          end
      | None => None
      end
  end.

Definition Previous_Nodes_Func (a1 b1 a2 b2 N : Z) (T : Table)
  : option Table :=
  Previous_Nodes_rows T (f a1 b1 a2 b2 N).

(** The loop [for j in range(1,N)[::-1]], [js] being the values of [j]
    still to come. *)
Fixpoint Bernoulli_Bandit_loop (a1 b1 a2 b2 : Z) (js : list Z)
  (Previous_Node : Table) : option Table :=
  match js with
  | [] => Some Previous_Node
  | j :: js' =>
      match Previous_Nodes_Func a1 b1 a2 b2 j Previous_Node with
      | Some T => Bernoulli_Bandit_loop a1 b1 a2 b2 js' T
      | None => None
      end
  end.

Definition Bernoulli_Bandit (a1 b1 a2 b2 N : Z) : option Table :=
  Bernoulli_Bandit_loop a1 b1 a2 b2 (rev (range 1 N))
    (Final_Nodes a1 b1 a2 b2 N).

(** The table the loop of [Bernoulli_Bandit] holds once it has done the
    passes [j = N-1, ..., N-m]: the values of [f(a1,b1,a2,b2,N-m)]. *)
Definition Bernoulli_Bandit_after (a1 b1 a2 b2 N : Z) (m : nat)
  : option Table :=
  Bernoulli_Bandit_loop a1 b1 a2 b2 (firstn m (rev (range 1 N)))
    (Final_Nodes a1 b1 a2 b2 N).

End Solver.

(** What an exact bounded minimiser does for the objectives the solver
    gives it: the point returned lies in the bounds [[0,1]] and within 1/2
    of a point where the objective is least on [[0,1]].  The minimiser as
    it runs in binary64 does not do as much: from
    (14433170,14433169,1,3) with N = 2 it returns 0.9086222483632319 where
    the objective is least at 0 only. *)
Definition bounded_minimizer (opt : (Q -> Q) -> Q) : Prop :=
  forall E1 E2 E3 E4 : Q,
    let g := fun p => minimize_func p E1 E2 E3 E4 in
    0 <= opt g <= 1 /\
    exists m, 0 <= m <= 1 /\
              (forall q, 0 <= q <= 1 -> g m <= g q) /\
              Qabs (opt g - m) < 1 # 2.

(** An exact minimiser: the objective is linear in [p], so it is least
    at an end of the interval. *)
Definition endpoint_minimizer (g : Q -> Q) : Q :=
  if Qle_bool (g 0) (g 1) then 0 else 1.

(** What the solver needs of the bounded minimiser for the shape of its
    result: the point returned lies in the bounds [[0,1]]. *)
Definition within_bounds (opt : (Q -> Q) -> Q) : Prop :=
  forall E1 E2 E3 E4 : Q,
    0 <= opt (fun p => minimize_func p E1 E2 E3 E4) <= 1.

(** ** Definitions that follow the specification's words *)

(** The posterior mean [alpha/(alpha+beta)] of an arm. *)
Definition posterior_mean (alpha beta : Z) : Q :=
  inject_Z alpha / inject_Z (alpha + beta).

(** The recursion of the specification, with [S t] trials remaining:
    the better of the two arms, each worth its immediate expected reward
    plus the expected value of its two successors. *)
Fixpoint spec_value (t : nat) (s : Node) : Q :=
  match t with
  | O => Final_value s
  | S t' =>
      let '(a1, b1, a2, b2) := s in
      let p1 := posterior_mean a1 b1 in
      let p2 := posterior_mean a2 b2 in
      Qmax (p1 + p1 * spec_value t' (Node_add s u0)
               + (1 - p1) * spec_value t' (Node_add s u1))
           (p2 + p2 * spec_value t' (Node_add s u2)
               + (1 - p2) * spec_value t' (Node_add s u3))
  end.

(** ** Auxiliary definitions for the proofs *)

(** [m] values counting down from [j]: what is left of
    [range(1,N)[::-1]]. *)
Fixpoint countdown (j m : nat) : list Z :=
  match m with
  | O => []
  | S m' => Z.of_nat j :: countdown (pred j) m'
  end.


(** [s'] is [s] after [k] increments of single counts. *)
Definition reached (k : nat) (s s' : Node) : Prop :=
  exists i j l m : nat,
    (i + j + l + m = k)%nat /\
    s' = Node_add s (Z.of_nat i, Z.of_nat j, Z.of_nat l, Z.of_nat m).

(** [s'] is [s] with exactly one count incremented by 1. *)
Definition one_step (s s' : Node) : Prop :=
  s' = Node_add s u0 \/ s' = Node_add s u1 \/
  s' = Node_add s u2 \/ s' = Node_add s u3.

Definition valid (s : Node) : Prop :=
  let '(a1, b1, a2, b2) := s in (1 <= a1 /\ 1 <= b1 /\ 1 <= a2 /\ 1 <= b2)%Z.




(** The number of increments that separate the rows of [f(a,b,c,d,n)] from
    (a, b, c, d): [n - 1], and 1 when [n < 1], where [f] builds the four
    rows and does not loop. *)
Definition layer_of (n : Z) : nat :=
  if (n <? 1)%Z then 1%nat else Z.to_nat (n - 1).

(** The row the backward pass computes for the state [s] in its [t]-th
    pass ([t = 0]: the terminal layer), from the rows of the four
    increments of [s] in the pass before. *)
Fixpoint row_of (opt : (Q -> Q) -> Q) (t : nat) (s : Node) : Row :=
  match t with
  | O => mkRow s (Final_value s) None
  | S t' =>
      let E1 := col4 (row_of opt t' (Node_add s u0)) in
      let E2 := col4 (row_of opt t' (Node_add s u1)) in
      let E3 := col4 (row_of opt t' (Node_add s u2)) in
      let E4 := col4 (row_of opt t' (Node_add s u3)) in
      let choice :=
        np_round (opt (fun p => minimize_func p E1 E2 E3 E4)) in
      mkRow s (- minimize_func choice E1 E2 E3 E4) (Some choice)
  end.

(** ** The backward pass in binary64 *)

(** The same functions with column 4 in float64, as the notebook runs
    them, for the evaluation of the solver on given inputs.  The counts
    are those of [f]. *)

Local Open Scope float_scope.

(** An [int64] as a float64, rounded to nearest (for |z| < 2^63). *)
Definition float_of_int64 (z : Z) : float :=
  if (z <? 0)%Z then - of_uint63 (Uint63.of_Z (- z))
  else of_uint63 (Uint63.of_Z z).

(** Python's [max(x, y)]. *)
Definition py_max_b64 (x y : float) : float := if x <? y then y else x.

(** [np.round]: to the nearest integer, a tie to the even one. *)
Definition np_round_b64 (x : float) : float :=
  let big := 4503599627370496 in
  if abs x <? big
  then if x <? 0 then - ((- x + big) - big) else (x + big) - big
  else x.

Definition minimize_func_b64 (p E1 E2 E3 E4 : float) : float :=
  - (p * (1 + E1) + p * (0 + E2) + (1 - p) * (1 + E3) + (1 - p) * (0 + E4)).

(** *** [minimize_scalar(..., method = 'bounded')]

    scipy's bounded minimiser (Brent's method with golden-section steps),
    with its constants and the default [xatol = 1e-5], [maxiter = 500].
    It is not code of the notebook; it is transcribed here so that the
    solver can be evaluated. *)

Record Brent : Type := mkBrent {
  br_a : float; br_b : float;
  br_xf : float; br_fx : float;
  br_nfc : float; br_fnfc : float;
  br_fulc : float; br_ffulc : float;
  br_e : float; br_rat : float;
  br_xm : float; br_tol1 : float; br_tol2 : float }.

Definition sqrt_eps : float := sqrt 2.2e-16.
Definition golden_mean : float := 0.5 * (3.0 - sqrt 5.0).
Definition xatol : float := 1e-5.

(** [np.sign(x) + (x == 0)] *)
Definition sign_or_one (x : float) : float :=
  if 0 <? x then 1 else if x <? 0 then -1 else if x =? 0 then 1 else nan.

(** One pass of the [while] loop. *)
Definition brent_step (func : float -> float) (st : Brent) : Brent :=
  let a := br_a st in
  let b := br_b st in
  let xf := br_xf st in
  let fx := br_fx st in
  let nfc := br_nfc st in
  let fnfc := br_fnfc st in
  let fulc := br_fulc st in
  let ffulc := br_ffulc st in
  let xm := br_xm st in
  let tol1 := br_tol1 st in
  let tol2 := br_tol2 st in
  let golden_section (_ : unit) :=
    let e := if xm <=? xf then a - xf else b - xf in
    (e, golden_mean * e) in
  let '(e, rat) :=
    if tol1 <? abs (br_e st) then
      (* a parabolic fit *)
      let r := (xf - nfc) * (fx - ffulc) in
      let q := (xf - fulc) * (fx - fnfc) in
      let p := (xf - fulc) * q - (xf - nfc) * r in
      let q := 2.0 * (q - r) in
      let p := if 0.0 <? q then - p else p in
      let q := abs q in
      let r := br_e st in
      let e := br_rat st in
      if (abs p <? abs (0.5 * q * r)) && (q * (a - xf) <? p)
         && (p <? q * (b - xf))
      then
        let rat := (p + 0.0) / q in
        let x := xf + rat in
        if (x - a <? tol2) || (b - x <? tol2)
        then (e, tol1 * sign_or_one (xm - xf))
        else (e, rat)
      else golden_section tt
    else golden_section tt in
  let si := sign_or_one rat in
  let x := xf + si * (if abs rat <? tol1 then tol1 else abs rat) in
  let fu := func x in
  let '(a, b, xf', fx', nfc, fnfc, fulc, ffulc) :=
    if fu <=? fx then
      (if xf <=? x then xf else a, if xf <=? x then b else xf,
       x, fu, xf, fx, nfc, fnfc)
    else
      let a := if x <? xf then x else a in
      let b := if x <? xf then b else x in
      if (fu <=? fnfc) || (nfc =? xf) then
        (a, b, xf, fx, x, fu, nfc, fnfc)
      else if (fu <=? ffulc) || (fulc =? xf) || (fulc =? nfc) then
        (a, b, xf, fx, nfc, fnfc, x, fu)
      else (a, b, xf, fx, nfc, fnfc, fulc, ffulc) in
  let tol1 := sqrt_eps * abs xf' + xatol / 3.0 in
  mkBrent a b xf' fx' nfc fnfc fulc ffulc e rat (0.5 * (a + b)) tol1
    (2.0 * tol1).

(** The [while] loop; [fuel] is the number of evaluations still allowed. *)
Fixpoint brent_loop (fuel : nat) (func : float -> float) (st : Brent)
  : float :=
  match fuel with
  | O => br_xf st
  | S fuel' =>
      if br_tol2 st - 0.5 * (br_b st - br_a st) <? abs (br_xf st - br_xm st)
      then brent_loop fuel' func (brent_step func st)
      else br_xf st
  end.

(** The [.x] of the result, for the bounds [[0,1]]. *)
Definition minimize_scalar_b64 (func : float -> float) : float :=
  let a := 0 in
  let b := 1 in
  let fulc := a + golden_mean * (b - a) in
  let fx := func fulc in
  let tol1 := sqrt_eps * abs fulc + xatol / 3.0 in
  brent_loop 499 func
    (mkBrent a b fulc fx fulc fx fulc fx 0.0 0.0 (0.5 * (a + b)) tol1
       (2.0 * tol1)).

(** *** The tables *)

Record Row_b64 : Type :=
  mkRow_b64 { node_b64 : Node; col4_b64 : float; col5_b64 : option float }.

Definition Final_value_b64 (s : Node) : float :=
  let '(a1, b1, a2, b2) := s in
  let E_1 := float_of_int64 a1 / float_of_int64 (a1 + b1) in
  let E_2 := float_of_int64 a2 / float_of_int64 (a2 + b2) in
  py_max_b64 E_1 E_2.

Definition Final_Nodes_b64 (a1 b1 a2 b2 N : Z) : list Row_b64 :=
  map (fun s => mkRow_b64 s (Final_value_b64 s) None) (f a1 b1 a2 b2 N).

Definition select_col4_b64 (T : list Row_b64) (A : Node) : list float :=
  map col4_b64 (filter (fun r => Node_eqb (node_b64 r) A) T).

Definition item_b64 (E : list float) : option float :=
  match E with
  | [v] => Some v
  | _ => None
  end.

Definition successors_values_b64 (T : list Row_b64) (s : Node)
  : option (float * float * float * float) :=
  match children s with
  | [A; B; C; D] =>
      match item_b64 (select_col4_b64 T A), item_b64 (select_col4_b64 T B),
            item_b64 (select_col4_b64 T C), item_b64 (select_col4_b64 T D)
      with
      | Some E1, Some E2, Some E3, Some E4 => Some (E1, E2, E3, E4)
      | _, _, _, _ => None
      end
  | _ => None
  end.

Definition Previous_Nodes_row_b64 (T : list Row_b64) (s : Node)
  : option Row_b64 :=
  match successors_values_b64 T s with
  | Some (E1, E2, E3, E4) =>
      let choice :=
        np_round_b64
          (minimize_scalar_b64 (fun p => minimize_func_b64 p E1 E2 E3 E4)) in
      Some (mkRow_b64 s (- minimize_func_b64 choice E1 E2 E3 E4)
              (Some choice))
  | None => None
  end.

Fixpoint Previous_Nodes_rows_b64 (T : list Row_b64) (rows : list Node)
  : option (list Row_b64) :=
  match rows with
  | [] => Some []
  | s :: rows' =>
      match Previous_Nodes_row_b64 T s with
      | Some r =>
          match Previous_Nodes_rows_b64 T rows' with
          | Some rs => Some (r :: rs)
          | None => None
          end
      | None => None
      end
  end.

Definition Previous_Nodes_Func_b64 (a1 b1 a2 b2 N : Z) (T : list Row_b64)
  : option (list Row_b64) :=
  Previous_Nodes_rows_b64 T (f a1 b1 a2 b2 N).

Fixpoint Bernoulli_Bandit_loop_b64 (a1 b1 a2 b2 : Z) (js : list Z)
  (Previous_Node : list Row_b64) : option (list Row_b64) :=
  match js with
  | [] => Some Previous_Node
  | j :: js' =>
      match Previous_Nodes_Func_b64 a1 b1 a2 b2 j Previous_Node with
      | Some T => Bernoulli_Bandit_loop_b64 a1 b1 a2 b2 js' T
      | None => None
      end
  end.

Definition Bernoulli_Bandit_b64 (a1 b1 a2 b2 N : Z)
  : option (list Row_b64) :=
  Bernoulli_Bandit_loop_b64 a1 b1 a2 b2 (rev (range 1 N))
    (Final_Nodes_b64 a1 b1 a2 b2 N).

(** The table held once the passes [j = N-1, ..., N-m] are done. *)
Definition Bernoulli_Bandit_after_b64 (a1 b1 a2 b2 N : Z) (m : nat)
  : option (list Row_b64) :=
  Bernoulli_Bandit_loop_b64 a1 b1 a2 b2 (firstn m (rev (range 1 N)))
    (Final_Nodes_b64 a1 b1 a2 b2 N).

(** At the last pass of a run with [N >= 2]: the four values selected for
    the initial state, what the two machines are worth
    ([-minimize_func(1, ...)], [-minimize_func(0, ...)]) and the point the
    minimiser returns. *)
Definition first_decision_b64 (a1 b1 a2 b2 N : Z)
  : option ((float * float * float * float) * (float * float) * float) :=
  match Bernoulli_Bandit_after_b64 a1 b1 a2 b2 N (Z.to_nat (N - 2)) with
  | Some T =>
      match successors_values_b64 T (a1, b1, a2, b2) with
      | Some (E1, E2, E3, E4) =>
          Some ((E1, E2, E3, E4),
                (- minimize_func_b64 1 E1 E2 E3 E4,
                 - minimize_func_b64 0 E1 E2 E3 E4),
                minimize_scalar_b64
                  (fun p => minimize_func_b64 p E1 E2 E3 E4))
      | None => None
      end
  | None => None
  end.

Close Scope float_scope.

(** * Properties *)

(** ** Rows of counts *)

Local Open Scope Z_scope.

Lemma Node_eqb_eq (s t : Node) : Node_eqb s t = true <-> s = t.
Proof.
  destruct s as [[[a b] c] d], t as [[[a' b'] c'] d']; simpl.
  rewrite !andb_true_iff, !Z.eqb_eq.
  split.
  - intros [[[-> ->] ->] ->]; reflexivity.
  - intros H; injection H as -> -> -> ->; auto.
Qed.

Lemma Node_eqb_refl (s : Node) : Node_eqb s s = true.
Proof. apply Node_eqb_eq; reflexivity. Qed.

Lemma Node_eqb_neq (s t : Node) : Node_eqb s t = false <-> s <> t.
Proof.
  rewrite <- Node_eqb_eq. destruct (Node_eqb s t); split; congruence.
Qed.

Lemma existsb_Node_eqb (r : Node) (l : list Node) :
  existsb (Node_eqb r) l = true <-> In r l.
Proof.
  rewrite existsb_exists. split.
  - intros [x [Hx He]]. apply Node_eqb_eq in He. subst; assumption.
  - intros H. exists r. split; [assumption | apply Node_eqb_refl].
Qed.

Lemma Node_ext (a b c d a' b' c' d' : Z) :
  a = a' -> b = b' -> c = c' -> d = d' -> (a, b, c, d) = (a', b', c', d').
Proof. congruence. Qed.

(** Equal rows, count by count. *)
Ltac node_eq :=
  repeat match goal with
         | s : Node |- _ => destruct s as [[[? ?] ?] ?]
         end;
  unfold Node_add, u0, u1, u2, u3 in *;
  repeat match goal with
         | H : (_, _) = (_, _) |- _ => injection H as ? ?
         end;
  subst; first [ lia | apply Node_ext; lia | idtac ].

Lemma children_one_step (s s' : Node) : In s' (children s) <-> one_step s s'.
Proof.
  unfold children, one_step; simpl. intuition (subst; auto).
Qed.

Lemma children_NoDup (s : Node) : NoDup (children s).
Proof.
  unfold children.
  repeat constructor; simpl; intros H;
    repeat (destruct H as [H | H]; [ node_eq | ]); try exact H.
Qed.

(** ** Removing duplicate rows *)

Lemma drop_duplicates_from_In (seen rows : list Node) (x : Node) :
  In x (drop_duplicates_from seen rows) <-> In x rows /\ ~ In x seen.
Proof.
  revert seen. induction rows as [| r rows IH]; intros seen; simpl.
  - tauto.
  - destruct (existsb (Node_eqb r) seen) eqn:E.
    + apply existsb_Node_eqb in E. rewrite IH.
      split.
      * tauto.
      * intros [[-> | H] Hn]; [contradiction | tauto].
    + assert (Hr : ~ In r seen).
      { intros H. apply existsb_Node_eqb in H. congruence. }
      simpl. rewrite IH. simpl.
      split.
      * intros [-> | [H Hn]]; [tauto | tauto].
      * intros [[-> | H] Hn]; [tauto |].
        destruct (Node_eqb r x) eqn:Ex.
        -- apply Node_eqb_eq in Ex. tauto.
        -- apply Node_eqb_neq in Ex. tauto.
Qed.

Lemma drop_duplicates_from_NoDup (seen rows : list Node) :
  NoDup (drop_duplicates_from seen rows).
Proof.
  revert seen. induction rows as [| r rows IH]; intros seen; simpl.
  - constructor.
  - destruct (existsb (Node_eqb r) seen); [apply IH |].
    constructor; [| apply IH].
    rewrite drop_duplicates_from_In. simpl. tauto.
Qed.

Lemma drop_duplicates_In (rows : list Node) (x : Node) :
  In x (drop_duplicates rows) <-> In x rows.
Proof.
  unfold drop_duplicates. rewrite drop_duplicates_from_In. simpl. tauto.
Qed.

Lemma drop_duplicates_NoDup (rows : list Node) : NoDup (drop_duplicates rows).
Proof. apply drop_duplicates_from_NoDup. Qed.

(** ** Layers of the enumeration *)

Lemma range_length (lo hi : Z) : length (range lo hi) = Z.to_nat (hi - lo).
Proof. unfold range. rewrite length_map, length_seq. reflexivity. Qed.

Lemma reached_0 (s s' : Node) : reached 0 s s' <-> s' = s.
Proof.
  unfold reached. split.
  - intros (i & j & l & m & Hk & ->).
    assert (i = 0 /\ j = 0 /\ l = 0 /\ m = 0)%nat as (-> & -> & -> & ->) by lia.
    node_eq.
  - intros ->. exists 0%nat, 0%nat, 0%nat, 0%nat.
    split; [reflexivity | node_eq].
Qed.

(** [k + 1] increments are one increment followed by [k] increments. *)
Lemma reached_S (k : nat) (s s' : Node) :
  reached (S k) s s' <-> exists s1, In s1 (children s) /\ reached k s1 s'.
Proof.
  split.
  - intros (i & j & l & m & Hk & ->).
    destruct i as [| i]; [destruct j as [| j];
      [destruct l as [| l]; [destruct m as [| m]; [lia |] |] |] |].
    + exists (Node_add s u3). split; [simpl; auto |].
      exists 0%nat, 0%nat, 0%nat, m. split; [lia | node_eq].
    + exists (Node_add s u2). split; [simpl; auto |].
      exists 0%nat, 0%nat, l, m. split; [lia | node_eq].
    + exists (Node_add s u1). split; [simpl; auto |].
      exists 0%nat, j, l, m. split; [lia | node_eq].
    + exists (Node_add s u0). split; [simpl; auto |].
      exists i, j, l, m. split; [lia | node_eq].
  - intros (s1 & Hs1 & i & j & l & m & Hk & ->).
    apply children_one_step in Hs1.
    destruct Hs1 as [-> | [-> | [-> | ->]]].
    + exists (S i), j, l, m. split; [lia | node_eq].
    + exists i, (S j), l, m. split; [lia | node_eq].
    + exists i, j, (S l), m. split; [lia | node_eq].
    + exists i, j, l, (S m). split; [lia | node_eq].
Qed.

(** [k + 1] increments are [k] increments followed by one. *)
Lemma reached_S_last (k : nat) (s s' : Node) :
  reached (S k) s s' <-> exists s1, reached k s s1 /\ one_step s1 s'.
Proof.
  split.
  - intros (i & j & l & m & Hk & ->).
    destruct i as [| i]; [destruct j as [| j];
      [destruct l as [| l]; [destruct m as [| m]; [lia |] |] |] |].
    + exists (Node_add s (0, 0, 0, Z.of_nat m)). split.
      * exists 0%nat, 0%nat, 0%nat, m. split; [lia | node_eq].
      * right; right; right. node_eq.
    + exists (Node_add s (0, 0, Z.of_nat l, Z.of_nat m)). split.
      * exists 0%nat, 0%nat, l, m. split; [lia | node_eq].
      * right; right; left. node_eq.
    + exists (Node_add s (0, Z.of_nat j, Z.of_nat l, Z.of_nat m)). split.
      * exists 0%nat, j, l, m. split; [lia | node_eq].
      * right; left. node_eq.
    + exists (Node_add s (Z.of_nat i, Z.of_nat j, Z.of_nat l, Z.of_nat m)).
      split.
      * exists i, j, l, m. split; [lia | node_eq].
      * left. node_eq.
  - intros (s1 & (i & j & l & m & Hk & ->) & [-> | [-> | [-> | ->]]]).
    + exists (S i), j, l, m. split; [lia | node_eq].
    + exists i, (S j), l, m. split; [lia | node_eq].
    + exists i, j, (S l), m. split; [lia | node_eq].
    + exists i, j, l, (S m). split; [lia | node_eq].
Qed.

Lemma Nodes2_In (Nodes : list Node) (s' : Node) :
  In s' (Nodes2 Nodes) <-> exists s, In s Nodes /\ In s' (children s).
Proof. unfold Nodes2. apply in_flat_map. Qed.


Lemma f_loop_In (js : list Z) (Nodes : list Node) (s' : Node) :
  In s' (f_loop js Nodes) <->
  exists s, In s Nodes /\ reached (length js) s s'.
Proof.
  revert Nodes. induction js as [| j js IH]; intros Nodes; simpl.
  - split.
    + intros H. exists s'. split; [assumption | apply reached_0; reflexivity].
    + intros (s & Hs & Hr). apply reached_0 in Hr. subst; assumption.
  - rewrite IH. split.
    + intros (s1 & Hs1 & Hr).
      apply drop_duplicates_In, Nodes2_In in Hs1.
      destruct Hs1 as (s & Hs & Hc).
      exists s. split; [assumption |]. apply reached_S. eauto.
    + intros (s & Hs & Hr). apply reached_S in Hr.
      destruct Hr as (s1 & Hc & Hr).
      exists s1. split; [| assumption].
      apply drop_duplicates_In, Nodes2_In. eauto.
Qed.

Lemma f_loop_NoDup (js : list Z) (Nodes : list Node) :
  NoDup Nodes -> NoDup (f_loop js Nodes).
Proof.
  revert Nodes. induction js as [| j js IH]; intros Nodes H; simpl.
  - assumption.
  - apply IH, drop_duplicates_NoDup.
Qed.

Lemma f_NoDup (a b c d n : Z) : NoDup (f a b c d n).
Proof.
  unfold f. destruct (n =? 1).
  - repeat constructor. simpl. tauto.
  - apply f_loop_NoDup, children_NoDup.
Qed.

(** The rows of [f(a,b,c,d,k+1)] are the rows [k] increments away. *)
Lemma f_In (a b c d : Z) (k : nat) (s : Node) :
  In s (f a b c d (Z.of_nat k + 1)) <-> reached k (a, b, c, d) s.
Proof.
  unfold f. destruct k as [| k].
  - simpl. rewrite reached_0. split; [intros [H | []]; auto | auto].
  - replace (Z.of_nat (S k) + 1 =? 1) with false
      by (symmetry; apply Z.eqb_neq; lia).
    rewrite f_loop_In, range_length.
    replace (Z.to_nat (Z.of_nat (S k) + 1 - 2)) with k by lia.
    rewrite reached_S. reflexivity.
Qed.




(** For [n < 1] the loop does not run: the four rows of [n = 2]. *)
Lemma f_nonpositive (a b c d n : Z) :
  n < 1 -> f a b c d n = children (a, b, c, d).
Proof.
  intros H. unfold f.
  replace (n =? 1) with false by (symmetry; apply Z.eqb_neq; lia).
  unfold range. replace (Z.to_nat (n - 2)) with 0%nat by lia. reflexivity.
Qed.

(** ** Counting the rows of a layer *)

Local Open Scope nat_scope.












Local Open Scope Z_scope.

Lemma reached_coord_sum (k : nat) (s s' : Node) :
  reached k s s' -> coord_sum s' = coord_sum s + Z.of_nat k.
Proof.
  intros (i & j & l & m & Hk & ->).
  destruct s as [[[a b] c] d]. simpl. lia.
Qed.

Lemma reached_valid (k : nat) (s s' : Node) :
  valid s -> reached k s s' -> valid s'.
Proof.
  intros Hv (i & j & l & m & Hk & ->).
  destruct s as [[[a b] c] d]. simpl in *. lia.
Qed.

Lemma one_step_valid (s s' : Node) : valid s -> one_step s s' -> valid s'.
Proof.
  intros Hv H. destruct s as [[[a b] c] d].
  destruct H as [-> | [-> | [-> | ->]]]; simpl in *; lia.
Qed.

(** ** The enumerator: the claims *)


(** The invariant of the rows in the integers: from a valid initial state
    and for [n >= 1], the rows of [f(a,b,c,d,n)] have counts [>= 1] and a
    coordinate sum equal to the initial sum plus [n - 1], and the rows of
    the next table are the single increments of the rows of this one. *)
Lemma f_counts_invariant (a b c d n : Z) :
  valid (a, b, c, d) -> 1 <= n ->
  (forall s, In s (f a b c d n) ->
     valid s /\ coord_sum s = coord_sum (a, b, c, d) + (n - 1)) /\
  (forall s', In s' (f a b c d (n + 1)) ->
     exists s, In s (f a b c d n) /\ one_step s s') /\
  (forall s s', In s (f a b c d n) -> one_step s s' ->
     In s' (f a b c d (n + 1))).
Proof.
  intros Hv Hn.
  replace n with (Z.of_nat (Z.to_nat (n - 1)) + 1) by lia.
  set (k := Z.to_nat (n - 1)).
  replace (Z.of_nat k + 1 + 1) with (Z.of_nat (S k) + 1) by lia.
  repeat split.
  - apply f_In in H. eapply reached_valid; eassumption.
  - apply f_In in H. apply reached_coord_sum in H. lia.
  - intros s' H. apply f_In, reached_S_last in H.
    destruct H as (s1 & Hr & Hs). exists s1. split; [| assumption].
    apply f_In. assumption.
  - intros s s' H Hs. apply f_In. apply reached_S_last.
    exists s. split; [| assumption]. apply f_In. assumption.
Qed.

(** ** The enumerator in 64-bit integers *)

Lemma wrap_int64_id (z : Z) :
  int64_min <= z <= int64_max -> wrap_int64 z = z.
Proof.
  unfold wrap_int64, int64_min, int64_max. intros H.
  rewrite Z.mod_small by lia. lia.
Qed.

Lemma Node_bounded_weaken (lo hi lo' hi' : Z) (s : Node) :
  lo' <= lo -> hi <= hi' -> Node_bounded lo hi s -> Node_bounded lo' hi' s.
Proof.
  destruct s as [[[a b] c] d]. unfold Node_bounded. lia.
Qed.

Lemma Node_in_int64_true (s : Node) :
  Node_bounded int64_min int64_max s -> Node_in_int64 s = true.
Proof.
  destruct s as [[[a b] c] d]. unfold Node_bounded, Node_in_int64, in_int64.
  intros H. rewrite !andb_true_iff, !Z.leb_le. lia.
Qed.

Lemma children_bounded (lo hi : Z) (s c : Node) :
  Node_bounded lo hi s -> In c (children s) -> Node_bounded lo (hi + 1) c.
Proof.
  destruct s as [[[x y] z] w]. unfold Node_bounded. intros H Hc.
  apply children_one_step in Hc.
  destruct Hc as [-> | [-> | [-> | ->]]];
    unfold Node_add, u0, u1, u2, u3; lia.
Qed.

Lemma Node_add_int64_id (s v : Node) :
  Node_bounded int64_min int64_max (Node_add s v) ->
  Node_add_int64 s v = Node_add s v.
Proof.
  destruct s as [[[a b] c] d], v as [[[i j] k] l].
  unfold Node_bounded, Node_add, Node_add_int64.
  intros (Ha & Hb & Hc & Hd).
  rewrite !wrap_int64_id by assumption. reflexivity.
Qed.

Lemma children_int64_id (s : Node) :
  Node_bounded int64_min (int64_max - 1) s -> children_int64 s = children s.
Proof.
  intros H. unfold children_int64, children.
  assert (Hc : forall c, In c (children s) ->
                         Node_bounded int64_min int64_max c).
  { intros c Hc.
    apply (Node_bounded_weaken int64_min (int64_max - 1 + 1)); try lia.
    eapply children_bounded; eassumption. }
  rewrite !Node_add_int64_id by (apply Hc; simpl; auto).
  reflexivity.
Qed.

Lemma Nodes2_int64_id (Nodes : list Node) :
  (forall r, In r Nodes -> Node_bounded int64_min (int64_max - 1) r) ->
  Nodes2_int64 Nodes = Nodes2 Nodes.
Proof.
  unfold Nodes2_int64, Nodes2.
  induction Nodes as [| s Nodes IH]; intros H; [reflexivity |].
  cbn [flat_map]. rewrite children_int64_id by (apply H; simpl; auto).
  rewrite IH; [reflexivity |]. intros r Hr. apply H. simpl; auto.
Qed.

Lemma f_loop_int64_id (js : list Z) (Nodes : list Node) :
  (forall r, In r Nodes ->
     Node_bounded int64_min (int64_max - Z.of_nat (length js)) r) ->
  f_loop_int64 js Nodes = f_loop js Nodes.
Proof.
  revert Nodes. induction js as [| j js IH]; intros Nodes H; [reflexivity |].
  cbn [f_loop_int64 f_loop]. cbn [length] in H.
  rewrite Nodes2_int64_id.
  - apply IH. intros r Hr.
    apply drop_duplicates_In, Nodes2_In in Hr.
    destruct Hr as (s & Hs & Hc).
    apply (Node_bounded_weaken int64_min
             (int64_max - Z.of_nat (S (length js)) + 1)); try lia.
    eapply children_bounded; [apply H |]; eassumption.
  - intros r Hr.
    apply (Node_bounded_weaken int64_min
             (int64_max - Z.of_nat (S (length js)))); try lia.
    apply H. assumption.
Qed.

(** While the counts stay in range, the table in [int64] is the table in
    the integers. *)
Lemma f_int64_id (a b c d n : Z) :
  Node_bounded int64_min (int64_max - Z.of_nat (layer_of n)) (a, b, c, d) ->
  f_int64 a b c d n = Some (f a b c d n).
Proof.
  intros H. unfold f_int64, f.
  destruct (n =? 1) eqn:E.
  - rewrite Node_in_int64_true; [reflexivity |].
    eapply Node_bounded_weaken; [| | eassumption]; lia.
  - apply Z.eqb_neq in E.
    assert (Hl : (1 <= layer_of n)%nat /\
                 Z.of_nat (layer_of n) = Z.of_nat (length (range 2 n)) + 1).
    { unfold layer_of. rewrite range_length.
      destruct (n <? 1) eqn:E1.
      - apply Z.ltb_lt in E1. split; [lia |].
        replace (Z.to_nat (n - 2)) with 0%nat by lia. reflexivity.
      - apply Z.ltb_ge in E1. split; lia. }
    destruct Hl as [Hl1 Hl2].
    replace [(a + 1, b, c, d); (a, b + 1, c, d); (a, b, c + 1, d);
             (a, b, c, d + 1)] with (children (a, b, c, d)).
    2: { unfold children, Node_add, u0, u1, u2, u3.
         repeat (f_equal; try (apply Node_ext; lia)). }
    assert (Hc : forall r, In r (children (a, b, c, d)) ->
              Node_bounded int64_min
                (int64_max - Z.of_nat (length (range 2 n))) r).
    { intros r Hr.
      apply (Node_bounded_weaken int64_min
               (int64_max - Z.of_nat (layer_of n) + 1)); try lia.
      eapply children_bounded; eassumption. }
    replace (forallb Node_in_int64 (children (a, b, c, d))) with true.
    + rewrite f_loop_int64_id by assumption. reflexivity.
    + symmetry. apply forallb_forall. intros r Hr.
      apply Node_in_int64_true.
      eapply Node_bounded_weaken; [| | apply Hc; eassumption]; lia.
Qed.

(** C10 as stated fails at the valid initial state (2^63 - 2, 1, 1, 1)
    with [n = 3]: the first count of the first row wraps around to
    -2^63. *)
Lemma f_int64_wraps :
  valid (9223372036854775806, 1, 1, 1) /\
  f_int64 9223372036854775806 1 1 1 3 =
    Some [ (-9223372036854775808, 1, 1, 1);
           (9223372036854775807, 2, 1, 1);
           (9223372036854775807, 1, 2, 1);
           (9223372036854775807, 1, 1, 2);
           (9223372036854775806, 3, 1, 1);
           (9223372036854775806, 2, 2, 1);
           (9223372036854775806, 2, 1, 2);
           (9223372036854775806, 1, 3, 1);
           (9223372036854775806, 1, 2, 2);
           (9223372036854775806, 1, 1, 3) ] /\
  ~ valid (-9223372036854775808, 1, 1, 1) /\
  coord_sum (-9223372036854775808, 1, 1, 1) <>
    coord_sum (9223372036854775806, 1, 1, 1) + (3 - 1).
Proof.
  split; [simpl; lia |]. split; [vm_compute; reflexivity |].
  split; [simpl; lia | simpl; lia].
Qed.

(** C10, amended.  From an initial state whose counts are at least 1 and,
    with [n] added, at most 2^63 - 1, for every [n >= 1]: every row of the
    table [f(a,b,c,d,n)] has its four counts [>= 1] and a coordinate sum
    equal to the initial sum plus [n - 1]; every row of the table for
    [n + 1] is a row of this one with exactly one count incremented by 1,
    and every such increment of a row of this table is a row of the
    next. *)
Theorem f_int64_counts_invariant (a b c d n : Z) :
  1 <= n -> Node_bounded 1 (int64_max - n) (a, b, c, d) ->
  exists rows rows',
    f_int64 a b c d n = Some rows /\
    f_int64 a b c d (n + 1) = Some rows' /\
    (forall s, In s rows ->
       valid s /\ coord_sum s = coord_sum (a, b, c, d) + (n - 1)) /\
    (forall s', In s' rows' -> exists s, In s rows /\ one_step s s') /\
    (forall s s', In s rows -> one_step s s' -> In s' rows').
Proof.
  intros Hn Hb.
  assert (Hv : valid (a, b, c, d)) by (unfold Node_bounded in Hb; simpl; lia).
  exists (f a b c d n), (f a b c d (n + 1)).
  split; [| split].
  - apply f_int64_id. eapply Node_bounded_weaken; [| | eassumption].
    + unfold int64_min; lia.
    + unfold layer_of.
      replace (n <? 1) with false by (symmetry; apply Z.ltb_ge; lia). lia.
  - apply f_int64_id. eapply Node_bounded_weaken; [| | eassumption].
    + unfold int64_min; lia.
    + unfold layer_of.
      replace (n + 1 <? 1) with false by (symmetry; apply Z.ltb_ge; lia).
      lia.
  - apply f_counts_invariant; assumption.
Qed.

Lemma f_int64_counts_invariant_witness :
  exists rows rows',
    f_int64 1 1 1 1 3 = Some rows /\
    f_int64 1 1 1 1 (3 + 1) = Some rows' /\
    (forall s, In s rows ->
       valid s /\ coord_sum s = coord_sum (1, 1, 1, 1) + (3 - 1)) /\
    (forall s', In s' rows' -> exists s, In s rows /\ one_step s s') /\
    (forall s s', In s rows -> one_step s s' -> In s' rows').
Proof.
  apply (f_int64_counts_invariant 1 1 1 1 3).
  - lia.
  - unfold Node_bounded, int64_max. lia.
Defined.

(** ** Arithmetic of the backward pass *)

Local Open Scope Q_scope.

Lemma py_max_Qmax (x y : Q) : py_max x y == Qmax x y.
Proof.
  unfold py_max. destruct (Qle_bool y x) eqn:E.
  - apply Qle_bool_iff in E. symmetry. apply Q.max_l. assumption.
  - symmetry. apply Q.max_r. apply Qlt_le_weak, Qnot_le_lt.
    intros H. apply Qle_bool_iff in H. congruence.
Qed.

Lemma Qfloor_unit (x : Q) : 0 <= x -> x < 1 -> Qfloor x = 0%Z.
Proof.
  intros H0 H1.
  pose proof (Qfloor_le x) as Hl. pose proof (Qlt_floor x) as Hu.
  assert (Hlt : (Qfloor x < 1)%Z).
  { rewrite Zlt_Qlt. eapply Qle_lt_trans; eassumption. }
  assert (Hgt : (0 < Qfloor x + 1)%Z).
  { rewrite Zlt_Qlt. eapply Qle_lt_trans; eassumption. }
  lia.
Qed.

Lemma np_round_low (x : Q) : 0 <= x -> x <= 1 # 2 -> np_round x = 0.
Proof.
  intros H0 H1. unfold np_round.
  rewrite (Qfloor_unit x) by lra.
  destruct (Qcompare_spec (x - inject_Z 0) (1 # 2)) as [H | H | H];
    try reflexivity.
  unfold inject_Z in H. lra.
Qed.

Lemma np_round_high (x : Q) : 1 # 2 < x -> x <= 1 -> np_round x = 1.
Proof.
  intros H0 H1. unfold np_round.
  destruct (Qlt_le_dec x 1) as [Hx | Hx].
  - rewrite (Qfloor_unit x) by lra.
    destruct (Qcompare_spec (x - inject_Z 0) (1 # 2)) as [H | H | H];
      try reflexivity; unfold inject_Z in H; lra.
  - assert (Hx1 : x == 1) by lra.
    assert (Hf : Qfloor x = 1%Z) by (rewrite Hx1; reflexivity).
    rewrite Hf.
    destruct (Qcompare_spec (x - inject_Z 1) (1 # 2)) as [H | H | H];
      try reflexivity; unfold inject_Z in H; lra.
Qed.

Lemma np_round_unit (x : Q) :
  0 <= x <= 1 -> np_round x = 0 \/ np_round x = 1.
Proof.
  intros [H0 H1]. destruct (Qlt_le_dec (1 # 2) x).
  - right. apply np_round_high; assumption.
  - left. apply np_round_low; assumption.
Qed.

(** The objective is linear in the mixing parameter. *)
Lemma minimize_func_linear (p E1 E2 E3 E4 : Q) :
  - minimize_func p E1 E2 E3 E4 ==
  (1 + E3 + E4) + p * ((1 + E1 + E2) - (1 + E3 + E4)).
Proof. unfold minimize_func. ring. Qed.

(** Rounding a point that is within 1/2 of a minimiser of the objective on
    [[0,1]] gives 1 when machine 1 is worth more and 0 when machine 2 is. *)
Lemma rounded_minimizer (E1 E2 E3 E4 x : Q) :
  0 <= x <= 1 ->
  (exists m, 0 <= m <= 1 /\
             (forall q, 0 <= q <= 1 ->
                minimize_func m E1 E2 E3 E4 <= minimize_func q E1 E2 E3 E4) /\
             Qabs (x - m) < 1 # 2) ->
  (1 + E1 + E2 < 1 + E3 + E4 -> np_round x = 0) /\
  (1 + E3 + E4 < 1 + E1 + E2 -> np_round x = 1) /\
  (np_round x = 0 \/ np_round x = 1).
Proof.
  intros Hx (m & Hm & Hmin & Hd).
  apply Qabs_Qlt_condition in Hd.
  pose proof (Hmin 0 ltac:(lra)) as Hm0.
  pose proof (Hmin 1 ltac:(lra)) as Hm1.
  pose proof (minimize_func_linear m E1 E2 E3 E4) as Lm.
  pose proof (minimize_func_linear 0 E1 E2 E3 E4) as L0.
  pose proof (minimize_func_linear 1 E1 E2 E3 E4) as L1.
  set (X := 1 + E1 + E2) in *. set (Y := 1 + E3 + E4) in *.
  split; [| split].
  - (* machine 2 is worth more: the objective is least at 0 only *)
    intros Hlt. assert (Hm' : m == 0).
    { destruct (Qlt_le_dec 0 m) as [Hpos | Hneg]; [| lra].
      assert (0 < m * (Y - X)) by (apply Qmult_lt_0_compat; lra).
      nra. }
    apply np_round_low; lra.
  - (* machine 1 is worth more: the objective is least at 1 only *)
    intros Hlt. assert (Hm' : m == 1).
    { destruct (Qlt_le_dec m 1) as [Hpos | Hneg]; [| lra].
      assert (0 < (1 - m) * (X - Y)) by (apply Qmult_lt_0_compat; lra).
      nra. }
    apply np_round_high; lra.
  - apply np_round_unit; assumption.
Qed.

Lemma endpoint_minimizer_bounded : bounded_minimizer endpoint_minimizer.
Proof.
  intros E1 E2 E3 E4 g. unfold endpoint_minimizer.
  assert (Hg : forall q, - g q ==
                 (1 + E3 + E4) + q * ((1 + E1 + E2) - (1 + E3 + E4)))
    by (intros q; apply minimize_func_linear).
  pose proof (Hg 0) as H0. pose proof (Hg 1) as H1.
  destruct (Qle_bool (g 0) (g 1)) eqn:E.
  - apply Qle_bool_iff in E. split; [lra |].
    exists 0. split; [lra |]. split.
    + intros q Hq. pose proof (Hg q) as Hgq.
      assert (0 <= q * ((1 + E3 + E4) - (1 + E1 + E2)))
        by (apply Qmult_le_0_compat; lra).
      nra.
    + setoid_replace (0 - 0) with 0 by ring. reflexivity.
  - assert (E' : g 1 < g 0).
    { apply Qnot_le_lt. intros H. apply Qle_bool_iff in H. congruence. }
    split; [lra |].
    exists 1. split; [lra |]. split.
    + intros q Hq. pose proof (Hg q) as Hgq.
      assert (0 <= (1 - q) * ((1 + E1 + E2) - (1 + E3 + E4)))
        by (apply Qmult_le_0_compat; lra).
      nra.
    + setoid_replace (1 - 1) with 0 by ring. reflexivity.
Qed.

(** ** Values of the terminal layer *)

Lemma posterior_nonneg (a b : Z) :
  (1 <= a)%Z -> (1 <= b)%Z -> 0 <= inject_Z a / inject_Z (a + b).
Proof.
  intros Ha Hb.
  apply Qle_shift_div_l.
  - change 0 with (inject_Z 0). rewrite <- Zlt_Qlt. lia.
  - rewrite Qmult_0_l. change 0 with (inject_Z 0). rewrite <- Zle_Qle. lia.
Qed.

Lemma Final_value_Qmax (a1 b1 a2 b2 : Z) :
  Final_value (a1, b1, a2, b2) ==
  Qmax (inject_Z a1 / inject_Z (a1 + b1)) (inject_Z a2 / inject_Z (a2 + b2)).
Proof. unfold Final_value. apply py_max_Qmax. Qed.

Lemma Final_value_nonneg (s : Node) : valid s -> 0 <= Final_value s.
Proof.
  destruct s as [[[a1 b1] a2] b2]. intros (H1 & H2 & H3 & H4).
  rewrite Final_value_Qmax.
  eapply Qle_trans; [| apply Q.le_max_l].
  apply posterior_nonneg; assumption.
Qed.



(** ** Exchanging the machines *)


(** ** Selections in a table without duplicate rows *)

Lemma select_col4_absent (T : Table) (A : Node) :
  ~ In A (map node T) -> select_col4 T A = [].
Proof.
  unfold select_col4. induction T as [| r T IH]; simpl; [reflexivity |].
  intros H. destruct (Node_eqb (node r) A) eqn:E.
  - apply Node_eqb_eq in E. tauto.
  - apply IH. tauto.
Qed.

Lemma select_col4_unique (T : Table) (A : Node) :
  NoDup (map node T) -> In A (map node T) ->
  exists r, In r T /\ node r = A /\ select_col4 T A = [col4 r].
Proof.
  induction T as [| r T IH]; simpl; [tauto |].
  intros Hnd Hin. inversion Hnd as [| ? ? Hnot Hnd']; subst.
  unfold select_col4. simpl.
  destruct (Node_eqb (node r) A) eqn:E.
  - apply Node_eqb_eq in E. subst A.
    exists r. split; [auto |]. split; [reflexivity |].
    simpl. f_equal. apply (select_col4_absent T (node r) Hnot).
  - apply Node_eqb_neq in E.
    destruct Hin as [Hin | Hin]; [contradiction |].
    destruct (IH Hnd' Hin) as (r' & Hr' & Hn & Hs).
    exists r'. auto.
Qed.

(** ** The rows the backward pass computes *)

(** The children of the rows of one layer are rows of the next. *)
Lemma f_children (a b c d : Z) (k : nat) (s s' : Node) :
  In s (f a b c d (Z.of_nat k + 1)) -> In s' (children s) ->
  In s' (f a b c d (Z.of_nat (S k) + 1)).
Proof.
  intros Hs Hc. apply f_In, reached_S_last.
  exists s. split; [apply f_In; assumption |].
  apply children_one_step; assumption.
Qed.

Lemma rev_range_countdown (n : nat) :
  rev (range 1 (Z.of_nat n + 1)) = countdown n n.
Proof.
  unfold range. replace (Z.to_nat (Z.of_nat n + 1 - 1)) with n by lia.
  induction n as [| n IH]; [reflexivity |].
  rewrite seq_S, map_app, rev_app_distr, IH.
  cbn [map rev app countdown pred Nat.add]. f_equal. lia.
Qed.

Lemma firstn_countdown (m j n : nat) :
  (m <= n)%nat -> firstn m (countdown j n) = countdown j m.
Proof.
  revert j n. induction m as [| m IH]; intros j n H; [reflexivity |].
  destruct n as [| n]; [lia |]. simpl. f_equal. apply IH. lia.
Qed.

Section Rows.

Variable opt : (Q -> Q) -> Q.

Lemma row_of_node (t : nat) (s : Node) : node (row_of opt t s) = s.
Proof. destruct t; reflexivity. Qed.

Lemma map_node_row_of (t : nat) (nodes : list Node) :
  map node (map (row_of opt t) nodes) = nodes.
Proof.
  rewrite map_map. rewrite <- (map_id nodes) at 2.
  apply map_ext. intros s. apply row_of_node.
Qed.

Lemma select_col4_row_of (t : nat) (nodes : list Node) (c : Node) :
  NoDup nodes -> In c nodes ->
  select_col4 (map (row_of opt t) nodes) c = [col4 (row_of opt t c)].
Proof.
  intros Hnd Hin.
  destruct (select_col4_unique (map (row_of opt t) nodes) c)
    as (r & Hr & Hn & ->).
  - rewrite map_node_row_of. assumption.
  - rewrite map_node_row_of. assumption.
  - apply in_map_iff in Hr. destruct Hr as (s & <- & _).
    rewrite row_of_node in Hn. subst s. reflexivity.
Qed.

(** One pass of the loop of [Previous_Nodes_Func] on the rows of the pass
    before gives the row of this pass. *)
Lemma Previous_Nodes_row_row_of (t : nat) (nodes : list Node) (s : Node) :
  NoDup nodes -> (forall c, In c (children s) -> In c nodes) ->
  Previous_Nodes_row opt (map (row_of opt t) nodes) s =
  Some (row_of opt (S t) s).
Proof.
  intros Hnd Hc. unfold Previous_Nodes_row, successors_values, children.
  rewrite !select_col4_row_of
    by first [assumption | apply Hc; simpl; auto].
  reflexivity.
Qed.

Lemma Previous_Nodes_rows_row_of (t : nat) (nodes rows : list Node) :
  NoDup nodes ->
  (forall s c, In s rows -> In c (children s) -> In c nodes) ->
  Previous_Nodes_rows opt (map (row_of opt t) nodes) rows =
  Some (map (row_of opt (S t)) rows).
Proof.
  intros Hnd. induction rows as [| s rows IH]; intros Hc; [reflexivity |].
  cbn [Previous_Nodes_rows map].
  rewrite Previous_Nodes_row_row_of;
    [| assumption | intros c; apply Hc; simpl; auto].
  rewrite IH; [reflexivity |].
  intros s' c Hs'. apply Hc. simpl; auto.
Qed.

Lemma Previous_Nodes_Func_row_of (a1 b1 a2 b2 : Z) (k t : nat) :
  Previous_Nodes_Func opt a1 b1 a2 b2 (Z.of_nat (S k))
    (map (row_of opt t) (f a1 b1 a2 b2 (Z.of_nat (S k) + 1))) =
  Some (map (row_of opt (S t)) (f a1 b1 a2 b2 (Z.of_nat k + 1))).
Proof.
  unfold Previous_Nodes_Func.
  assert (E : f a1 b1 a2 b2 (Z.of_nat (S k)) = f a1 b1 a2 b2 (Z.of_nat k + 1))
    by (f_equal; lia).
  rewrite E.
  apply Previous_Nodes_rows_row_of.
  - apply f_NoDup.
  - intros s c Hs Hc. eapply f_children; eassumption.
Qed.

Lemma Bernoulli_Bandit_loop_row_of (a1 b1 a2 b2 : Z) (m : nat) :
  forall j t : nat,
    (m <= j)%nat ->
    Bernoulli_Bandit_loop opt a1 b1 a2 b2 (countdown j m)
      (map (row_of opt t) (f a1 b1 a2 b2 (Z.of_nat j + 1))) =
    Some (map (row_of opt (t + m)) (f a1 b1 a2 b2 (Z.of_nat (j - m) + 1))).
Proof.
  induction m as [| m IH]; intros j t Hm.
  - cbn [countdown Bernoulli_Bandit_loop].
    rewrite Nat.sub_0_r, Nat.add_0_r. reflexivity.
  - destruct j as [| j]; [lia |].
    cbn [countdown Bernoulli_Bandit_loop pred].
    rewrite Previous_Nodes_Func_row_of, IH by lia.
    replace (S j - S m)%nat with (j - m)%nat by lia.
    replace (t + S m)%nat with (S t + m)%nat by lia. reflexivity.
Qed.

Lemma Final_Nodes_row_of (a1 b1 a2 b2 N : Z) :
  Final_Nodes a1 b1 a2 b2 N = map (row_of opt 0) (f a1 b1 a2 b2 N).
Proof. reflexivity. Qed.

(** The table held after [m] passes of the loop of [Bernoulli_Bandit]. *)
Lemma Bernoulli_Bandit_after_row_of (a1 b1 a2 b2 N : Z) (m : nat) :
  (Z.of_nat m + 1 <= N)%Z ->
  Bernoulli_Bandit_after opt a1 b1 a2 b2 N m =
  Some (map (row_of opt m) (f a1 b1 a2 b2 (N - Z.of_nat m))).
Proof.
  intros Hm. unfold Bernoulli_Bandit_after.
  set (n := Z.to_nat (N - 1)).
  assert (HR : rev (range 1 N) = countdown n n).
  { rewrite <- rev_range_countdown. do 2 f_equal. lia. }
  rewrite HR, firstn_countdown by lia.
  rewrite Final_Nodes_row_of.
  replace N with (Z.of_nat n + 1)%Z at 1 by lia.
  rewrite Bernoulli_Bandit_loop_row_of by lia.
  do 3 f_equal. lia.
Qed.

(** For [N >= 1] the solver returns one row, that of the initial state
    after [N - 1] passes. *)
Lemma Bernoulli_Bandit_row_of (a1 b1 a2 b2 N : Z) :
  (1 <= N)%Z ->
  Bernoulli_Bandit opt a1 b1 a2 b2 N =
  Some [row_of opt (Z.to_nat (N - 1)) (a1, b1, a2, b2)].
Proof.
  intros HN.
  assert (HA : Bernoulli_Bandit opt a1 b1 a2 b2 N =
               Bernoulli_Bandit_after opt a1 b1 a2 b2 N (Z.to_nat (N - 1))).
  { unfold Bernoulli_Bandit, Bernoulli_Bandit_after.
    rewrite firstn_all2; [reflexivity |].
    rewrite length_rev, range_length. lia. }
  rewrite HA, Bernoulli_Bandit_after_row_of by lia.
  replace (N - Z.of_nat (Z.to_nat (N - 1)))%Z with 1%Z by lia.
  reflexivity.
Qed.

(** For [N < 1] neither loop runs: the table of the four increments. *)
Lemma Bernoulli_Bandit_below_one (a1 b1 a2 b2 N : Z) :
  (N < 1)%Z ->
  Bernoulli_Bandit opt a1 b1 a2 b2 N =
  Some (map (fun s => mkRow s (Final_value s) None)
          (children (a1, b1, a2, b2))).
Proof.
  intros H. unfold Bernoulli_Bandit, range.
  replace (Z.to_nat (N - 1)) with 0%nat by lia.
  unfold Final_Nodes. rewrite f_nonpositive by assumption. reflexivity.
Qed.

(** The rounded point designates a machine, and the value stored is what
    that machine is worth. *)
Lemma row_of_S_designated (t : nat) (s : Node) :
  within_bounds opt ->
  (col5 (row_of opt (S t) s) = Some 1 /\
   col4 (row_of opt (S t) s) ==
     1 + col4 (row_of opt t (Node_add s u0))
       + col4 (row_of opt t (Node_add s u1))) \/
  (col5 (row_of opt (S t) s) = Some 0 /\
   col4 (row_of opt (S t) s) ==
     1 + col4 (row_of opt t (Node_add s u2))
       + col4 (row_of opt t (Node_add s u3))).
Proof.
  intros H. cbn [row_of col4 col5].
  set (E1 := col4 (row_of opt t (Node_add s u0))).
  set (E2 := col4 (row_of opt t (Node_add s u1))).
  set (E3 := col4 (row_of opt t (Node_add s u2))).
  set (E4 := col4 (row_of opt t (Node_add s u3))).
  destruct (np_round_unit _ (H E1 E2 E3 E4)) as [-> | ->].
  - right. split; [reflexivity |]. rewrite minimize_func_linear. ring.
  - left. split; [reflexivity |]. rewrite minimize_func_linear. ring.
Qed.

Lemma row_of_nonneg (t : nat) (s : Node) :
  within_bounds opt -> valid s -> 0 <= col4 (row_of opt t s).
Proof.
  intros H. revert s. induction t as [| t IH]; intros s Hv.
  - apply Final_value_nonneg. assumption.
  - assert (V0 : valid (Node_add s u0))
      by (apply (one_step_valid s); [exact Hv | left; reflexivity]).
    assert (V1 : valid (Node_add s u1))
      by (apply (one_step_valid s); [exact Hv | right; left; reflexivity]).
    assert (V2 : valid (Node_add s u2))
      by (apply (one_step_valid s);
          [exact Hv | right; right; left; reflexivity]).
    assert (V3 : valid (Node_add s u3))
      by (apply (one_step_valid s);
          [exact Hv | right; right; right; reflexivity]).
    pose proof (IH _ V0). pose proof (IH _ V1).
    pose proof (IH _ V2). pose proof (IH _ V3).
    destruct (row_of_S_designated t s H) as [[_ ->] | [_ ->]]; lra.
Qed.

End Rows.

Lemma endpoint_minimizer_within : within_bounds endpoint_minimizer.
Proof.
  intros E1 E2 E3 E4. unfold endpoint_minimizer.
  destruct (Qle_bool _ _); lra.
Qed.

(** ** The backward pass: the claims *)



(** C1, at the input (1,1,1,1) with N = 2.  Whatever the minimiser returns,
    the solver stores for the initial state the value 1 + 2/3 + 1/2 =
    13/6, the sum of both successors' values plus 1, while the recursion
    of the specification gives 1/2 + 1/2 * 2/3 + 1/2 * 1/2 = 13/12: the
    weights [p_j] and [1 - p_j] are missing from the objective. *)
Theorem Bernoulli_Bandit_unweighted (opt : (Q -> Q) -> Q) :
  exists r,
    Bernoulli_Bandit opt 1 1 1 1 2 = Some [r] /\
    node r = (1, 1, 1, 1)%Z /\
    col4 r == 1 + (2 # 3) + (1 # 2) /\
    spec_value 1 (1, 1, 1, 1)%Z ==
      (1 # 2) + (1 # 2) * (2 # 3) + (1 - (1 # 2)) * (1 # 2) /\
    ~ col4 r == spec_value 1 (1, 1, 1, 1)%Z.
Proof.
  eexists. split; [reflexivity |]. split; [reflexivity |].
  assert (H : forall c, - minimize_func c (2 # 3) (1 # 2) (2 # 3) (1 # 2)
                        == 1 + (2 # 3) + (1 # 2)).
  { intros c. rewrite minimize_func_linear. ring. }
  assert (Hs : spec_value 1 (1, 1, 1, 1)%Z == 13 # 12)
    by (vm_compute; reflexivity).
  cbn [col4]. split; [apply H |]. split.
  - rewrite Hs. vm_compute. reflexivity.
  - rewrite H, Hs. intros E. vm_compute in E. discriminate.
Qed.

(** C6, at the input (1,1,1,1) with N = 2.  The values of the terminal
    layer are 2/3, 1/2, 2/3, 1/2 as stated and the two machines tie, but
    the value the solver stores for the initial state is 13/6, not 1.0835
    (nor 13/12). *)
Theorem Bernoulli_Bandit_scenario (opt : (Q -> Q) -> Q) :
  Final_Nodes 1 1 1 1 2 =
    [ mkRow (2, 1, 1, 1)%Z (2 # 3) None; mkRow (1, 2, 1, 1)%Z (1 # 2) None;
      mkRow (1, 1, 2, 1)%Z (2 # 3) None; mkRow (1, 1, 1, 2)%Z (1 # 2) None ] /\
  successors_values (Final_Nodes 1 1 1 1 2) (1, 1, 1, 1)%Z =
    Some (2 # 3, 1 # 2, 2 # 3, 1 # 2) /\
  fst (arm_values (2 # 3) (1 # 2) (2 # 3) (1 # 2)) == 13 # 6 /\
  snd (arm_values (2 # 3) (1 # 2) (2 # 3) (1 # 2)) == 13 # 6 /\
  exists r,
    Bernoulli_Bandit opt 1 1 1 1 2 = Some [r] /\
    node r = (1, 1, 1, 1)%Z /\
    col4 r == 13 # 6 /\
    ~ col4 r == 10835 # 10000 /\
    ~ col4 r == 13 # 12.
Proof.
  split; [reflexivity |]. split; [reflexivity |].
  split; [vm_compute; reflexivity |]. split; [vm_compute; reflexivity |].
  eexists. split; [reflexivity |]. split; [reflexivity |].
  assert (H : forall c, - minimize_func c (2 # 3) (1 # 2) (2 # 3) (1 # 2)
                        == 13 # 6).
  { intros c. rewrite minimize_func_linear. ring. }
  cbn [col4]. split; [apply H |].
  split; rewrite H; intros E; vm_compute in E; discriminate.
Qed.

(** C7 as stated fails at the input (2,1,1,1) with N = 2: whatever
    minimiser meets the contract, the value of machine 2 (7/3) exceeds that
    of machine 1 (9/4) and the row returned holds 0 in column 5, which is
    neither 1 nor 2. *)
Lemma Bernoulli_Bandit_choice_zero :
  valid (2, 1, 1, 1)%Z /\
  bounded_minimizer endpoint_minimizer /\
  (forall opt, bounded_minimizer opt ->
     exists r,
       Bernoulli_Bandit opt 2 1 1 1 2 = Some [r] /\
       node r = (2, 1, 1, 1)%Z /\
       col5 r = Some 0 /\ col5 r <> Some 1 /\ col5 r <> Some 2).
Proof.
  split; [simpl; lia |]. split; [exact endpoint_minimizer_bounded |].
  intros opt Hopt.
  set (c := np_round
              (opt (fun p => minimize_func p (3 # 4) (2 # 4) (2 # 3) (2 # 3)))).
  exists (mkRow (2, 1, 1, 1)%Z
            (- minimize_func c (3 # 4) (2 # 4) (2 # 3) (2 # 3)) (Some c)).
  split; [reflexivity |]. split; [reflexivity |]. cbn [col5]. subst c.
  destruct (Hopt (3 # 4) (2 # 4) (2 # 3) (2 # 3)) as [Hx Hm].
  destruct (rounded_minimizer _ _ _ _ _ Hx Hm) as (H0 & _ & _).
  rewrite H0 by lra.
  repeat split; discriminate.
Qed.

(** C7, amended.  For an initial state whose counts are at least 1 and,
    with [N] added, at most 2^53 (where float64 holds them exactly), for
    [1 <= N <= 1023] (where the values, below 2^N, are finite in float64)
    and a minimiser that returns a point of its bounds [[0,1]]: the solver
    returns one row, that of the initial state; its value is not negative;
    for [N = 1] there is no column 5; for [N >= 2] column 5 holds the
    rounded point, 1 or 0, and it designates the machine: with 1 the value
    is 1 plus the two values the solver returns, with [N - 1] trials, from
    the states after a success and after a failure of machine 1, with 0 it
    is 1 plus those after a success and a failure of machine 2. *)
Theorem Bernoulli_Bandit_designated_machine (opt : (Q -> Q) -> Q)
  (a1 b1 a2 b2 N : Z) :
  within_bounds opt -> (1 <= N <= 1023)%Z ->
  Node_bounded 1 (float_exact - N) (a1, b1, a2, b2) ->
  exists r,
    Bernoulli_Bandit opt a1 b1 a2 b2 N = Some [r] /\
    node r = (a1, b1, a2, b2) /\
    0 <= col4 r /\
    (N = 1%Z -> col5 r = None) /\
    ((2 <= N)%Z ->
     exists rA rB rC rD,
       Bernoulli_Bandit opt (a1 + 1) b1 a2 b2 (N - 1) = Some [rA] /\
       Bernoulli_Bandit opt a1 (b1 + 1) a2 b2 (N - 1) = Some [rB] /\
       Bernoulli_Bandit opt a1 b1 (a2 + 1) b2 (N - 1) = Some [rC] /\
       Bernoulli_Bandit opt a1 b1 a2 (b2 + 1) (N - 1) = Some [rD] /\
       ((col5 r = Some 1 /\ col4 r == 1 + col4 rA + col4 rB) \/
        (col5 r = Some 0 /\ col4 r == 1 + col4 rC + col4 rD))).
Proof.
  intros Hopt [HN _] Hb.
  assert (Hv : valid (a1, b1, a2, b2))
    by (unfold Node_bounded in Hb; simpl; lia).
  exists (row_of opt (Z.to_nat (N - 1)) (a1, b1, a2, b2)).
  split; [apply Bernoulli_Bandit_row_of; assumption |].
  split; [apply row_of_node |].
  split; [apply row_of_nonneg; assumption |].
  split; [intros ->; reflexivity |].
  intros H2.
  set (t := Z.to_nat (N - 1 - 1)).
  exists (row_of opt t (a1 + 1, b1, a2, b2)%Z),
         (row_of opt t (a1, b1 + 1, a2, b2)%Z),
         (row_of opt t (a1, b1, a2 + 1, b2)%Z),
         (row_of opt t (a1, b1, a2, b2 + 1)%Z).
  repeat (split; [apply Bernoulli_Bandit_row_of; lia |]).
  replace (Z.to_nat (N - 1)) with (S t) by lia.
  assert (N0 : Node_add (a1, b1, a2, b2) u0 = (a1 + 1, b1, a2, b2)%Z)
    by (apply Node_ext; lia).
  assert (N1 : Node_add (a1, b1, a2, b2) u1 = (a1, b1 + 1, a2, b2)%Z)
    by (apply Node_ext; lia).
  assert (N2 : Node_add (a1, b1, a2, b2) u2 = (a1, b1, a2 + 1, b2)%Z)
    by (apply Node_ext; lia).
  assert (N3 : Node_add (a1, b1, a2, b2) u3 = (a1, b1, a2, b2 + 1)%Z)
    by (apply Node_ext; lia).
  rewrite <- N0, <- N1, <- N2, <- N3.
  apply row_of_S_designated. assumption.
Qed.

Lemma Bernoulli_Bandit_designated_machine_witness :
  exists r,
    Bernoulli_Bandit endpoint_minimizer 2 1 1 1 3 = Some [r] /\
    node r = (2, 1, 1, 1)%Z /\
    0 <= col4 r /\
    (3%Z = 1%Z -> col5 r = None) /\
    ((2 <= 3)%Z ->
     exists rA rB rC rD,
       Bernoulli_Bandit endpoint_minimizer (2 + 1) 1 1 1 (3 - 1) = Some [rA] /\
       Bernoulli_Bandit endpoint_minimizer 2 (1 + 1) 1 1 (3 - 1) = Some [rB] /\
       Bernoulli_Bandit endpoint_minimizer 2 1 (1 + 1) 1 (3 - 1) = Some [rC] /\
       Bernoulli_Bandit endpoint_minimizer 2 1 1 (1 + 1) (3 - 1) = Some [rD] /\
       ((col5 r = Some 1 /\ col4 r == 1 + col4 rA + col4 rB) \/
        (col5 r = Some 0 /\ col4 r == 1 + col4 rC + col4 rD))).
Proof.
  apply (Bernoulli_Bandit_designated_machine endpoint_minimizer 2 1 1 1 3).
  - exact endpoint_minimizer_within.
  - lia.
  - unfold Node_bounded, float_exact. lia.
Defined.

(** C8 as stated fails at the inputs (1,1,1,1) with N = 0 and (0,1,1,1)
    with N = 1: nothing is rejected, the solver enumerates and returns a
    table. *)
Lemma Bernoulli_Bandit_no_rejection :
  (forall opt,
     Bernoulli_Bandit opt 1 1 1 1 0 =
     Some [ mkRow (2, 1, 1, 1)%Z (2 # 3) None;
            mkRow (1, 2, 1, 1)%Z (1 # 2) None;
            mkRow (1, 1, 2, 1)%Z (2 # 3) None;
            mkRow (1, 1, 1, 2)%Z (1 # 2) None ]) /\
  (forall opt,
     Bernoulli_Bandit opt 0 1 1 1 1 =
     Some [ mkRow (0, 1, 1, 1)%Z (1 # 2) None ]).
Proof. split; reflexivity. Qed.

(** C8, amended.  The solver checks nothing about its input.  For every
    five integers whose counts lie between -2^53 and 2^53 less the larger
    of [N] and 2, it enumerates and returns a table: for [N >= 1] the row
    of the initial state; for [N < 1], where neither loop runs, the four
    states one increment away from the initial one, without column 5 and
    each with its greedy value, the larger of its two posterior means
    (where both sums of counts are not 0). *)
Theorem Bernoulli_Bandit_unvalidated (opt : (Q -> Q) -> Q)
  (a1 b1 a2 b2 N : Z) :
  Node_bounded (- float_exact) (float_exact - Z.max N 2) (a1, b1, a2, b2) ->
  exists T,
    Bernoulli_Bandit opt a1 b1 a2 b2 N = Some T /\
    ((1 <= N)%Z -> exists r, T = [r] /\ node r = (a1, b1, a2, b2)) /\
    ((N < 1)%Z ->
     map node T =
       [(a1 + 1, b1, a2, b2); (a1, b1 + 1, a2, b2);
        (a1, b1, a2 + 1, b2); (a1, b1, a2, b2 + 1)]%Z /\
     forall r, In r T ->
       col5 r = None /\
       let '(x1, y1, x2, y2) := node r in
       (x1 + y1)%Z <> 0%Z -> (x2 + y2)%Z <> 0%Z ->
       col4 r == Qmax (posterior_mean x1 y1) (posterior_mean x2 y2)).
Proof.
  intros _. destruct (Z_lt_le_dec N 1) as [H | H].
  - eexists. split; [apply Bernoulli_Bandit_below_one; assumption |].
    split; [lia |]. intros _. split.
    + rewrite map_map. cbn [node map children].
      unfold Node_add, u0, u1, u2, u3.
      repeat (f_equal; try (apply Node_ext; lia)).
    + intros r Hr. apply in_map_iff in Hr. destruct Hr as (s & <- & _).
      split; [reflexivity |]. cbn [node col4].
      destruct s as [[[x1 y1] x2] y2]. intros _ _. apply Final_value_Qmax.
  - eexists. split; [apply Bernoulli_Bandit_row_of; assumption |].
    split; [| lia]. intros _. eexists. split; [reflexivity |].
    apply row_of_node.
Qed.

Lemma Bernoulli_Bandit_unvalidated_witness :
  exists T,
    Bernoulli_Bandit endpoint_minimizer 0 1 1 1 0 = Some T /\
    ((1 <= 0)%Z -> exists r, T = [r] /\ node r = (0, 1, 1, 1)%Z) /\
    ((0 < 1)%Z ->
     map node T =
       [(0 + 1, 1, 1, 1); (0, 1 + 1, 1, 1);
        (0, 1, 1 + 1, 1); (0, 1, 1, 1 + 1)]%Z /\
     forall r, In r T ->
       col5 r = None /\
       let '(x1, y1, x2, y2) := node r in
       (x1 + y1)%Z <> 0%Z -> (x2 + y2)%Z <> 0%Z ->
       col4 r == Qmax (posterior_mean x1 y1) (posterior_mean x2 y2)).
Proof.
  apply (Bernoulli_Bandit_unvalidated endpoint_minimizer 0 1 1 1 0).
  unfold Node_bounded, float_exact. lia.
Defined.

(** ** The backward pass in binary64: the claims *)

Local Open Scope float_scope.

(** C4, as the notebook runs.  From (1,2,3,3) with N = 4, at the last
    pass the four values selected are 5.2, 5.017857142857142,
    5.314285714285715 and 4.9035714285714285; machine 1 is worth
    11.217857142857142 and machine 2 is worth 11.217857142857143; the
    bounded minimiser returns 0.6324108517337209, which rounds to 1, and
    the value stored is that of machine 1, below the direct maximum of
    the two.  From (14433170,14433169,1,3) with N = 2 the minimiser
    returns 0.9086222483632319 where machine 2 is worth more, and the
    value stored is again the smaller one. *)
Theorem Previous_Nodes_Func_b64_not_max :
  first_decision_b64 1 2 3 3 4 =
    Some (5.2, 5.017857142857142, 5.314285714285715, 4.9035714285714285,
          (11.217857142857142, 11.217857142857143), 0.6324108517337209) /\
  np_round_b64 0.6324108517337209 = 1 /\
  Bernoulli_Bandit_b64 1 2 3 3 4 =
    Some [mkRow_b64 (1, 2, 3, 3)%Z 11.217857142857142 (Some 1)] /\
  py_max_b64 11.217857142857142 11.217857142857143 = 11.217857142857143 /\
  (11.217857142857142 <? 11.217857142857143) = true /\
  first_decision_b64 14433170 14433169 1 3 2 =
    Some (0.5000000346424244, 0.5, 0.5000000173212128, 0.5000000173212128,
          (2.0000000346424245, 2.000000034642426), 0.9086222483632319) /\
  np_round_b64 0.9086222483632319 = 1 /\
  Bernoulli_Bandit_b64 14433170 14433169 1 3 2 =
    Some [mkRow_b64 (14433170, 14433169, 1, 3)%Z 2.0000000346424245
            (Some 1)] /\
  py_max_b64 2.0000000346424245 2.000000034642426 = 2.000000034642426 /\
  (2.0000000346424245 <? 2.000000034642426) = true.
Proof. repeat split; vm_compute; reflexivity. Qed.

(** C9, as the notebook runs.  The states (1,2,3,3) and (3,3,1,2) are each
    other with the machines exchanged; with N = 4 the solver returns
    11.217857142857142 from the first and 11.217857142857143 from the
    second.  So from (1,2,2,3) with N = 5 the two machines are worth
    22.811904761904763 and 22.81190476190476 at the first decision, and
    from the exchanged state (2,3,1,2) they are worth 22.811904761904763
    both, not the same two values exchanged.  From (2,2,1,1) and from
    (1,1,2,2) with N = 7 the two machines are worth 102.3095238095238 and
    102.30952380952381, in this order in both runs. *)
Theorem Bernoulli_Bandit_b64_not_exchanged :
  Bernoulli_Bandit_b64 1 2 3 3 4 =
    Some [mkRow_b64 (1, 2, 3, 3)%Z 11.217857142857142 (Some 1)] /\
  Bernoulli_Bandit_b64 3 3 1 2 4 =
    Some [mkRow_b64 (3, 3, 1, 2)%Z 11.217857142857143 (Some 1)] /\
  (11.217857142857142 =? 11.217857142857143) = false /\
  first_decision_b64 1 2 2 3 5 =
    Some (11.233333333333334, 10.578571428571427, 11.217857142857142,
          10.594047619047618,
          (22.811904761904763, 22.81190476190476), 0.5670007239957059) /\
  first_decision_b64 2 3 1 2 5 =
    Some (11.217857142857143, 10.594047619047618, 11.233333333333334,
          10.578571428571427,
          (22.811904761904763, 22.811904761904763), 0.7173102098967874) /\
  (22.81190476190476 =? 22.811904761904763) = false /\
  option_map (fun d => snd (fst d)) (first_decision_b64 2 2 1 1 7) =
    Some (102.3095238095238, 102.30952380952381) /\
  option_map (fun d => snd (fst d)) (first_decision_b64 1 1 2 2 7) =
    Some (102.3095238095238, 102.30952380952381) /\
  (102.3095238095238 =? 102.30952380952381) = false.
Proof. repeat split; vm_compute; reflexivity. Qed.

Close Scope float_scope.

(** * Further properties of the enumerator *)

Local Open Scope Z_scope.





Lemma Node_add_inj (v s s' : Node) : Node_add s v = Node_add s' v -> s = s'.
Proof.
  destruct v as [[[x y] z] w], s as [[[a b] c] d], s' as [[[a' b'] c'] d'].
  unfold Node_add. intros H. injection H as H1 H2 H3 H4.
  apply Node_ext; lia.
Qed.

Lemma children_shift (v s : Node) :
  children (Node_add s v) = map (fun c => Node_add c v) (children s).
Proof.
  destruct v as [[[x y] z] w], s as [[[a b] c] d].
  unfold children, Node_add, u0, u1, u2, u3. cbn [map].
  repeat (f_equal; try (apply Node_ext; lia)).
Qed.

Lemma Nodes2_shift (v : Node) (Nodes : list Node) :
  Nodes2 (map (fun c => Node_add c v) Nodes) =
  map (fun c => Node_add c v) (Nodes2 Nodes).
Proof.
  unfold Nodes2. induction Nodes as [| s Nodes IH]; [reflexivity |].
  cbn [flat_map map]. rewrite map_app, IH, children_shift. reflexivity.
Qed.

Lemma existsb_shift (v r : Node) (seen : list Node) :
  existsb (Node_eqb (Node_add r v)) (map (fun c => Node_add c v) seen) =
  existsb (Node_eqb r) seen.
Proof.
  destruct (existsb (Node_eqb r) seen) eqn:E.
  - apply existsb_Node_eqb. apply existsb_Node_eqb in E.
    apply in_map_iff. exists r. auto.
  - destruct (existsb _ (map _ seen)) eqn:E'; [| reflexivity].
    apply existsb_Node_eqb, in_map_iff in E'.
    destruct E' as (r' & He & Hin). apply Node_add_inj in He. subst r'.
    apply existsb_Node_eqb in Hin. congruence.
Qed.

Lemma drop_duplicates_from_shift (v : Node) (seen rows : list Node) :
  drop_duplicates_from (map (fun c => Node_add c v) seen)
    (map (fun c => Node_add c v) rows) =
  map (fun c => Node_add c v) (drop_duplicates_from seen rows).
Proof.
  revert seen. induction rows as [| r rows IH]; intros seen; simpl.
  - reflexivity.
  - rewrite existsb_shift. destruct (existsb (Node_eqb r) seen).
    + apply IH.
    + simpl. f_equal. apply (IH (r :: seen)).
Qed.

Lemma f_loop_shift (v : Node) (js : list Z) (Nodes : list Node) :
  f_loop js (map (fun c => Node_add c v) Nodes) =
  map (fun c => Node_add c v) (f_loop js Nodes).
Proof.
  revert Nodes. induction js as [| j js IH]; intros Nodes; simpl.
  - reflexivity.
  - rewrite Nodes2_shift. unfold drop_duplicates.
    rewrite (drop_duplicates_from_shift v []). apply IH.
Qed.

(** Moving the initial state moves every row, in the integers. *)
Lemma f_shift (a b c d x y z w n : Z) :
  f (a + x) (b + y) (c + z) (d + w) n =
  map (fun s => Node_add s (x, y, z, w)) (f a b c d n).
Proof.
  unfold f. destruct (n =? 1); [reflexivity |].
  rewrite <- f_loop_shift. f_equal.
  apply (children_shift (x, y, z, w) (a, b, c, d)).
Qed.

(** X2. Moving the initial state by (x, y, z, w) moves every row of the
    table by (x, y, z, w) and changes nothing else, the rows come in the
    same order, as long as the counts of both initial states lie within
    64 bits with room for the increments of the table: at most 2^63 - 1
    less the larger of [n - 1] and 1. *)
Theorem f_int64_shift (a b c d x y z w n : Z) :
  Node_bounded int64_min (int64_max - Z.max (n - 1) 1) (a, b, c, d) ->
  Node_bounded int64_min (int64_max - Z.max (n - 1) 1)
    (a + x, b + y, c + z, d + w) ->
  exists rows,
    f_int64 a b c d n = Some rows /\
    f_int64 (a + x) (b + y) (c + z) (d + w) n =
      Some (map (fun s => Node_add s (x, y, z, w)) rows).
Proof.
  intros H H'.
  assert (Hl : Z.of_nat (layer_of n) <= Z.max (n - 1) 1).
  { unfold layer_of. destruct (n <? 1) eqn:E; [lia |].
    apply Z.ltb_ge in E. lia. }
  exists (f a b c d n). split.
  - apply f_int64_id. eapply Node_bounded_weaken; [| | exact H]; lia.
  - rewrite <- f_shift. apply f_int64_id.
    eapply Node_bounded_weaken; [| | exact H']; lia.
Qed.

Lemma f_int64_shift_witness :
  exists rows,
    f_int64 1 1 1 1 3 = Some rows /\
    f_int64 (1 + 2) (1 + 0) (1 + 1) (1 + 0) 3 =
      Some (map (fun s => Node_add s (2, 0, 1, 0)) rows).
Proof.
  apply (f_int64_shift 1 1 1 1 2 0 1 0 3);
    unfold Node_bounded, int64_min, int64_max; lia.
Defined.









(** * Further properties of the backward pass *)

Local Open Scope Q_scope.



Lemma item_select_col4_In (T : Table) (A : Node) (E : Q) :
  item (select_col4 T A) = Some E ->
  exists r, In r T /\ node r = A /\ col4 r = E.
Proof.
  unfold select_col4. intros H.
  destruct (filter (fun r => Node_eqb (node r) A) T) as [| r [| r' l]] eqn:F;
    try discriminate.
  injection H as <-.
  assert (Hin : In r (filter (fun r => Node_eqb (node r) A) T))
    by (rewrite F; simpl; auto).
  apply filter_In in Hin. destruct Hin as [Hin He].
  apply Node_eqb_eq in He. eauto.
Qed.

Lemma Previous_Nodes_rows_In (opt : (Q -> Q) -> Q) (T : Table)
  (rows : list Node) (T' : Table) (r' : Row) :
  Previous_Nodes_rows opt T rows = Some T' -> In r' T' ->
  exists s, In s rows /\ Previous_Nodes_row opt T s = Some r'.
Proof.
  revert T'. induction rows as [| s rows IH]; intros T' H Hin; simpl in H.
  - injection H as <-. destruct Hin.
  - destruct (Previous_Nodes_row opt T s) as [r |] eqn:Er; [| discriminate].
    destruct (Previous_Nodes_rows opt T rows) as [rs |]; [| discriminate].
    injection H as <-. destruct Hin as [<- | Hin].
    + exists s. simpl; auto.
    + destruct (IH rs eq_refl Hin) as (s' & Hs' & Hr').
      exists s'. simpl; auto.
Qed.

(** The four selections of a row succeed when its four increments are
    rows of the table, and what they select are values of rows of the
    table. *)
Lemma successors_values_total (T : Table) (s : Node) :
  NoDup (map node T) ->
  (forall c, In c (children s) -> In c (map node T)) ->
  exists E1 E2 E3 E4, successors_values T s = Some (E1, E2, E3, E4).
Proof.
  intros Hnd Hc. unfold successors_values, children in *.
  destruct (select_col4_unique T (Node_add s u0) Hnd) as (rA & _ & _ & ->);
    [apply Hc; simpl; auto |].
  destruct (select_col4_unique T (Node_add s u1) Hnd) as (rB & _ & _ & ->);
    [apply Hc; simpl; auto |].
  destruct (select_col4_unique T (Node_add s u2) Hnd) as (rC & _ & _ & ->);
    [apply Hc; simpl; auto |].
  destruct (select_col4_unique T (Node_add s u3) Hnd) as (rD & _ & _ & ->);
    [apply Hc; simpl; auto |].
  cbn [item]. eauto.
Qed.

Lemma successors_values_In (T : Table) (s : Node) (E1 E2 E3 E4 : Q) :
  successors_values T s = Some (E1, E2, E3, E4) ->
  exists rA rB rC rD,
    In rA T /\ In rB T /\ In rC T /\ In rD T /\
    node rA = Node_add s u0 /\ node rB = Node_add s u1 /\
    node rC = Node_add s u2 /\ node rD = Node_add s u3 /\
    col4 rA = E1 /\ col4 rB = E2 /\ col4 rC = E3 /\ col4 rD = E4.
Proof.
  unfold successors_values, children. intros H.
  destruct (item (select_col4 T (Node_add s u0))) as [e1 |] eqn:S1;
    [| discriminate].
  destruct (item (select_col4 T (Node_add s u1))) as [e2 |] eqn:S2;
    [| discriminate].
  destruct (item (select_col4 T (Node_add s u2))) as [e3 |] eqn:S3;
    [| discriminate].
  destruct (item (select_col4 T (Node_add s u3))) as [e4 |] eqn:S4;
    [| discriminate].
  injection H as <- <- <- <-.
  destruct (item_select_col4_In _ _ _ S1) as (rA & HA & NA & CA).
  destruct (item_select_col4_In _ _ _ S2) as (rB & HB & NB & CB).
  destruct (item_select_col4_In _ _ _ S3) as (rC & HC & NC & CC).
  destruct (item_select_col4_In _ _ _ S4) as (rD & HD & ND & CD).
  exists rA, rB, rC, rD. repeat split; assumption.
Qed.

Lemma Previous_Nodes_rows_total (opt : (Q -> Q) -> Q) (T : Table)
  (rows : list Node) :
  NoDup (map node T) ->
  (forall s c, In s rows -> In c (children s) -> In c (map node T)) ->
  exists T', Previous_Nodes_rows opt T rows = Some T' /\ map node T' = rows.
Proof.
  intros Hnd. induction rows as [| s rows IH]; intros Hc.
  - exists []. split; reflexivity.
  - destruct (successors_values_total T s Hnd) as (E1 & E2 & E3 & E4 & HE).
    { intros c. apply Hc. simpl; auto. }
    destruct IH as (T' & HT' & Hn').
    { intros s' c Hs'. apply Hc. simpl; auto. }
    cbn [Previous_Nodes_rows]. unfold Previous_Nodes_row.
    rewrite HE, HT'. eexists. split; [reflexivity |].
    cbn [map node]. rewrite Hn'. reflexivity.
Qed.

(** X9. One call of [Previous_Nodes_Func] on a table whose rows are those
    of [f] for [j + 1], whatever its column 4 holds, for counts that with
    [j] added stay within 2^53 and a minimiser that returns a point of its
    bounds [[0,1]]: the result has the rows of [f] for [j], in that order;
    column 5 of a row holds 1 or 0 and designates a machine; column 4 is
    1 plus the two values selected for the increments of that machine (1:
    machine 1, 0: machine 2). *)
Theorem Previous_Nodes_Func_designated (opt : (Q -> Q) -> Q)
  (a1 b1 a2 b2 j : Z) (T : Table) :
  within_bounds opt -> (1 <= j)%Z ->
  Node_bounded (- float_exact) (float_exact - j) (a1, b1, a2, b2) ->
  map node T = f a1 b1 a2 b2 (j + 1) ->
  exists T',
    Previous_Nodes_Func opt a1 b1 a2 b2 j T = Some T' /\
    map node T' = f a1 b1 a2 b2 j /\
    forall r', In r' T' ->
      exists rA rB rC rD,
        In rA T /\ In rB T /\ In rC T /\ In rD T /\
        node rA = Node_add (node r') u0 /\ node rB = Node_add (node r') u1 /\
        node rC = Node_add (node r') u2 /\ node rD = Node_add (node r') u3 /\
        ((col5 r' = Some 1 /\ col4 r' == 1 + col4 rA + col4 rB) \/
         (col5 r' = Some 0 /\ col4 r' == 1 + col4 rC + col4 rD)).
Proof.
  intros Hopt Hj _ HT.
  destruct (Previous_Nodes_rows_total opt T (f a1 b1 a2 b2 j))
    as (T' & H' & Hn').
  - rewrite HT. apply f_NoDup.
  - intros s c Hs Hc. rewrite HT.
    replace j with (Z.of_nat (Z.to_nat (j - 1)) + 1)%Z in Hs |- * by lia.
    replace (Z.of_nat (Z.to_nat (j - 1)) + 1 + 1)%Z
      with (Z.of_nat (S (Z.to_nat (j - 1))) + 1)%Z by lia.
    eapply f_children; eassumption.
  - exists T'. split; [exact H' |]. split; [exact Hn' |].
    intros r' Hr'.
    destruct (Previous_Nodes_rows_In opt T _ T' r' H' Hr') as (s & _ & Hrow).
    unfold Previous_Nodes_row in Hrow.
    destruct (successors_values T s) as [[[[E1 E2] E3] E4] |] eqn:HE;
      [| discriminate].
    cbv beta iota in Hrow. injection Hrow as <-. cbn [node col4 col5].
    destruct (successors_values_In _ _ _ _ _ _ HE)
      as (rA & rB & rC & rD & HA & HB & HC & HD & NA & NB & NC & ND
          & <- & <- & <- & <-).
    exists rA, rB, rC, rD. repeat (split; [assumption |]).
    destruct (np_round_unit _ (Hopt (col4 rA) (col4 rB) (col4 rC) (col4 rD)))
      as [-> | ->].
    + right. split; [reflexivity |]. rewrite minimize_func_linear. ring.
    + left. split; [reflexivity |]. rewrite minimize_func_linear. ring.
Qed.

Lemma Previous_Nodes_Func_designated_witness :
  exists T',
    Previous_Nodes_Func endpoint_minimizer 1 1 1 1 2 (Final_Nodes 1 1 1 1 3)
      = Some T' /\
    map node T' = f 1 1 1 1 2 /\
    forall r', In r' T' ->
      exists rA rB rC rD,
        In rA (Final_Nodes 1 1 1 1 3) /\ In rB (Final_Nodes 1 1 1 1 3) /\
        In rC (Final_Nodes 1 1 1 1 3) /\ In rD (Final_Nodes 1 1 1 1 3) /\
        node rA = Node_add (node r') u0 /\ node rB = Node_add (node r') u1 /\
        node rC = Node_add (node r') u2 /\ node rD = Node_add (node r') u3 /\
        ((col5 r' = Some 1 /\ col4 r' == 1 + col4 rA + col4 rB) \/
         (col5 r' = Some 0 /\ col4 r' == 1 + col4 rC + col4 rD)).
Proof.
  apply (Previous_Nodes_Func_designated endpoint_minimizer 1 1 1 1 2
           (Final_Nodes 1 1 1 1 3)).
  - exact endpoint_minimizer_within.
  - lia.
  - unfold Node_bounded, float_exact. lia.
  - reflexivity.
Defined.

(** ** The size of the values *)

Lemma posterior_lt_1 (a b : Z) :
  (1 <= a)%Z -> (1 <= b)%Z -> inject_Z a / inject_Z (a + b) < 1.
Proof.
  intros Ha Hb. apply Qlt_shift_div_r.
  - change 0 with (inject_Z 0). rewrite <- Zlt_Qlt. lia.
  - rewrite Qmult_1_l, <- Zlt_Qlt. lia.
Qed.

Lemma Final_value_lt_1 (s : Node) : valid s -> Final_value s < 1.
Proof.
  destruct s as [[[a1 b1] a2] b2]. intros (H1 & H2 & H3 & H4).
  rewrite Final_value_Qmax.
  apply Q.max_lub_lt; apply posterior_lt_1; assumption.
Qed.

Lemma inject_Z_pow2_succ (t : nat) :
  inject_Z (2 ^ Z.of_nat (S t)) == 2 * inject_Z (2 ^ Z.of_nat t).
Proof.
  rewrite Nat2Z.inj_succ, Z.pow_succ_r by lia.
  rewrite inject_Z_mult. reflexivity.
Qed.

(** The values stored double, roughly, with each pass, whichever machine
    the rounded point designates. *)
Lemma row_of_bounds (opt : (Q -> Q) -> Q) (t : nat) (s : Node) :
  within_bounds opt -> valid s ->
  inject_Z (2 ^ Z.of_nat t) - 1 <= col4 (row_of opt t s) /\
  col4 (row_of opt t s) < inject_Z (2 ^ Z.of_nat (S t)) - 1.
Proof.
  intros Hopt. revert s. induction t as [| t IH]; intros s Hv.
  - pose proof (Final_value_nonneg s Hv).
    pose proof (Final_value_lt_1 s Hv).
    change (inject_Z (2 ^ Z.of_nat 0)) with 1.
    change (inject_Z (2 ^ Z.of_nat 1)) with 2.
    cbn [row_of col4]. split; lra.
  - assert (V0 : valid (Node_add s u0))
      by (apply (one_step_valid s); [exact Hv | left; reflexivity]).
    assert (V1 : valid (Node_add s u1))
      by (apply (one_step_valid s); [exact Hv | right; left; reflexivity]).
    assert (V2 : valid (Node_add s u2))
      by (apply (one_step_valid s);
          [exact Hv | right; right; left; reflexivity]).
    assert (V3 : valid (Node_add s u3))
      by (apply (one_step_valid s);
          [exact Hv | right; right; right; reflexivity]).
    destruct (IH _ V0) as [L0 U0]. destruct (IH _ V1) as [L1 U1].
    destruct (IH _ V2) as [L2 U2]. destruct (IH _ V3) as [L3 U3].
    pose proof (inject_Z_pow2_succ t) as P1.
    pose proof (inject_Z_pow2_succ (S t)) as P2.
    destruct (row_of_S_designated opt t s Hopt) as [[_ E] | [_ E]];
      rewrite E; split; lra.
Qed.

(** X11. For an initial state whose counts are at least 1 and, with [N]
    added, at most 2^53, for [1 <= N <= 1023] (where the values are finite
    in float64) and a minimiser that returns a point of its bounds
    [[0,1]], the value [v] the solver returns is at least 2^(N-1) - 1: it
    is not bounded by the number [N] of trials. *)
Theorem Bernoulli_Bandit_value_lower_bound (opt : (Q -> Q) -> Q)
  (a1 b1 a2 b2 N : Z) :
  within_bounds opt -> (1 <= N <= 1023)%Z ->
  Node_bounded 1 (float_exact - N) (a1, b1, a2, b2) ->
  exists r,
    Bernoulli_Bandit opt a1 b1 a2 b2 N = Some [r] /\
    inject_Z (2 ^ (N - 1)) - 1 <= col4 r.
Proof.
  intros Hopt [HN _] Hb.
  assert (Hv : valid (a1, b1, a2, b2))
    by (unfold Node_bounded in Hb; simpl; lia).
  eexists. split; [apply Bernoulli_Bandit_row_of; assumption |].
  destruct (row_of_bounds opt (Z.to_nat (N - 1)) _ Hopt Hv) as [L _].
  replace (Z.of_nat (Z.to_nat (N - 1))) with (N - 1)%Z in L by lia.
  exact L.
Qed.

Lemma Bernoulli_Bandit_value_lower_bound_witness :
  exists r,
    Bernoulli_Bandit endpoint_minimizer 1 1 1 1 4 = Some [r] /\
    inject_Z (2 ^ (4 - 1)) - 1 <= col4 r.
Proof.
  apply (Bernoulli_Bandit_value_lower_bound endpoint_minimizer 1 1 1 1 4).
  - exact endpoint_minimizer_within.
  - lia.
  - unfold Node_bounded, float_exact. lia.
Defined.

(** X12. For an initial state whose counts are at least 1 and, with
    [N + 1] added, at most 2^53, for [1 <= N < 1023] (where the values of
    both runs are finite in float64) and a minimiser that returns a point
    of its bounds [[0,1]], one more trial makes the value the solver
    returns strictly larger. *)
Theorem Bernoulli_Bandit_more_trials (opt : (Q -> Q) -> Q)
  (a1 b1 a2 b2 N : Z) :
  within_bounds opt -> (1 <= N < 1023)%Z ->
  Node_bounded 1 (float_exact - (N + 1)) (a1, b1, a2, b2) ->
  exists r r',
    Bernoulli_Bandit opt a1 b1 a2 b2 N = Some [r] /\
    Bernoulli_Bandit opt a1 b1 a2 b2 (N + 1) = Some [r'] /\
    col4 r < col4 r'.
Proof.
  intros Hopt [HN _] Hb.
  assert (Hv : valid (a1, b1, a2, b2))
    by (unfold Node_bounded in Hb; simpl; lia).
  eexists. eexists.
  split; [apply Bernoulli_Bandit_row_of; assumption |].
  split; [apply Bernoulli_Bandit_row_of; lia |].
  destruct (row_of_bounds opt (Z.to_nat (N - 1)) _ Hopt Hv) as [_ U].
  destruct (row_of_bounds opt (Z.to_nat (N + 1 - 1)) _ Hopt Hv) as [L _].
  replace (Z.of_nat (Z.to_nat (N + 1 - 1)))
    with (Z.of_nat (S (Z.to_nat (N - 1)))) in L by lia.
  eapply Qlt_le_trans; eassumption.
Qed.

Lemma Bernoulli_Bandit_more_trials_witness :
  exists r r',
    Bernoulli_Bandit endpoint_minimizer 1 2 3 1 2 = Some [r] /\
    Bernoulli_Bandit endpoint_minimizer 1 2 3 1 (2 + 1) = Some [r'] /\
    col4 r < col4 r'.
Proof.
  apply (Bernoulli_Bandit_more_trials endpoint_minimizer 1 2 3 1 2).
  - exact endpoint_minimizer_within.
  - lia.
  - unfold Node_bounded, float_exact. lia.
Defined.
